(** * spaczz: token searcher and token matcher

    A shallow embedding of [spaczz/search/tokensearcher.py] and
    [spaczz/matcher/tokenmatcher.py], and the properties of the two-stage
    matching pipeline: windowed candidate search, concretization of
    candidates into exact patterns, scoring, ordering and rule registration.

    Python dictionaries are finite maps ([gmap]), exceptions are the [Raise]
    results of an error monad, and mutation of the matcher is explicit state
    passing. *)

From Stdlib Require Import ZArith QArith Qround Ascii String.
From stdpp Require Import base option list strings pretty gmap fin_maps sorting.

Local Open Scope Z_scope.

(** ** Exceptions and results *)

Inductive exn : Type :=
  | TypeError
  | ValueError
  | IndexError
  | KeyError
  | ZeroDivisionError
  | RegistryError
  | MatchPatternError.

Inductive res (A : Type) : Type :=
  | Ok (a : A)
  | Raise (e : exn).
Arguments Ok {A} a.
Arguments Raise {A} e.

#[global] Instance res_ret : MRet res := fun _ a => Ok a.
#[global] Instance res_bind : MBind res := fun _ _ f r =>
  match r with
  | Ok a => f a
  | Raise e => Raise e
  end.

Definition is_ok {A} (r : res A) : bool :=
  match r with Ok _ => true | Raise _ => false end.

(** ** Python values found in token patterns *)

(** The scalars a token pattern carries. *)
Inductive atom : Type :=
  | ANone
  | ABool (b : bool)
  | AInt (z : Z)
  | AStr (s : string).

(** The value of an attribute in a token-spec: a literal, or a constraint
    object such as [{"FUZZY": "access", "MIN_R": 85}]. *)
Inductive value : Type :=
  | VAtom (a : atom)
  | VDict (d : gmap string atom).

Abbreviation TokenSpec := (gmap string value).
Abbreviation Pattern := (list TokenSpec).

#[global] Instance atom_eq_dec : EqDecision atom.
Proof. solve_decision. Defined.

Definition str_truthy (s : string) : bool :=
  match s with EmptyString => false | _ => true end.

(** Python truth value testing ([if x:]). *)
Definition atom_truthy (a : atom) : bool :=
  match a with
  | ANone => false
  | ABool b => b
  | AInt z => negb (z =? 0)
  | AStr s => str_truthy s
  end.

Definition truthy (v : value) : bool :=
  match v with
  | VAtom a => atom_truthy a
  | VDict d => negb (bool_decide (d = ∅))
  end.

(** [d.get(k)]: the value at [k], [None] when the key is absent. *)
Definition spec_get (d : TokenSpec) (k : string) : value :=
  default (VAtom ANone) (d !! k).

Definition dict_get (d : gmap string atom) (k : string) : atom :=
  default ANone (d !! k).

(** [d.get(k, dflt)] *)
Definition dict_get_or (d : gmap string atom) (k : string) (dflt : atom) : atom :=
  default dflt (d !! k).

(** An [int] operand: [bool] is a subclass of [int]; anything else in a
    numeric comparison with an [int] raises [TypeError]. *)
Definition as_int (a : atom) : res Z :=
  match a with
  | AInt z => Ok z
  | ABool b => Ok (Z.b2z b)
  | _ => Raise TypeError
  end.

(** ** Documents *)

Record Token : Type := mkToken { text : string }.

Abbreviation Doc := (list Token).

(** [len(token)]: the number of characters of the token's text. *)
Definition token_len (t : Token) : Z := Z.of_nat (String.length (text t)).

(** ** Numbers *)

(** Similarity ratios are Python floats; they are modelled as rationals.
    [py_round] is the builtin [round]: to the nearest integer, ties to the
    even one. *)
Definition py_round (q : Q) : Z :=
  let f := Qfloor q in
  let d := (q - inject_Z f)%Q in
  match (d ?= 1 # 2)%Q with
  | Lt => f
  | Gt => f + 1
  | Eq => if Z.even f then f else f + 1
  end.

(** ** External collaborators *)

(** What the two modules import from outside the sources at hand:
    [str.lower], the fuzzy function registry ([..registry.fuzzy_funcs]), the
    [regex] engine, spaCy's exact [Matcher] and [srsly.json_dumps]. *)
Class External : Type := {
  (** [s.lower()] *)
  str_lower : string -> string;
  (** The similarity a registered name computes on two strings, before any
      cutoff is applied; [None] for a name that is not registered. *)
  fuzzy_funcs : string -> option (string -> string -> Q);
  (** [regex.match(pattern, text)] is a match object or [None]. *)
  regex_match : string -> string -> bool;
  (** The spans [(start, end)] spaCy's [Matcher], holding one pattern under
      one label, finds in a document. *)
  Matcher : string -> Pattern -> Doc -> res (list (nat * nat));
  (** [srsly.json_dumps(pattern)] *)
  json_dumps : Pattern -> string;
}.

(** Modelled from the spec: the registry's functions take a [score_cutoff]
    ("For ratio < score_cutoff, 0 is returned instead"); the registry module
    is not among the sources. *)
Definition with_cutoff (ratio : Q) (score_cutoff : Z) : Q :=
  match (ratio ?= inject_Z score_cutoff)%Q with
  | Lt => 0%Q
  | _ => ratio
  end.

(** Modelled from the spec: [util.n_wise(doc, n)], every contiguous window
    of [n] tokens, left to right; none when the document is shorter than
    [n]. The [util] module is not among the sources. *)
Fixpoint n_wise (doc : Doc) (n : nat) : list (list Token) :=
  match doc with
  | [] => []
  | _ :: rest =>
      if bool_decide (0 < n ≤ length doc)%nat
      then take n doc :: n_wise rest n
      else []
  end.

(** ** The token searcher *)

Module TokenSearcher.

(** A slot result: [None], or the pair [(case, text)] of the attribute that
    matched and the text found. *)
Abbreviation slot := (option (string * string)).

Abbreviation candidate := (list slot).

Section Searcher.
Context `{External}.

(** [fuzzy_funcs.get(fuzzy_func)]: a registry lookup, which raises for a key
    that is not registered. *)
Definition registry_get (fuzzy_func : atom) : res (string -> string -> Q) :=
  match fuzzy_func with
  | AStr name =>
      match fuzzy_funcs name with
      | Some f => Ok f
      | None => Raise RegistryError
      end
  | _ => Raise RegistryError
  end.

(** [round(fuzzy_funcs.get(fuzzy_func)(s1, s2, score_cutoff=score_cutoff))].
    The cutoff and the function name are the values found in the pattern,
    or the caller's defaults; a cutoff that is no number ends in a
    [TypeError], here or at the comparison that follows the call. *)
Definition fuzzy_compare (s1 s2 : string) (ignore_case : bool)
    (score_cutoff : atom) (fuzzy_func : atom) : res Z :=
  let s1 := if ignore_case then str_lower s1 else s1 in
  let s2 := if ignore_case then str_lower s2 else s2 in
  f ← registry_get fuzzy_func;
  cutoff ← as_int score_cutoff;
  mret (py_round (with_cutoff (f s1 s2) cutoff)).

Definition regex_compare (text pattern : string) (ignore_case : bool) : bool :=
  let text := if ignore_case then str_lower text else text in
  if regex_match pattern text then true else false.

Definition _parse_case (token : TokenSpec) : value * string * bool :=
  let text := spec_get token "TEXT" in
  if truthy text then (text, "TEXT"%string, false)
  else (spec_get token "LOWER", "LOWER"%string, true).

Definition _parse_type (pattern_dict : gmap string atom) : string * string :=
  let fuzzy_text := dict_get pattern_dict "FUZZY" in
  let regex_text := dict_get pattern_dict "FREGEX" in
  match fuzzy_text, regex_text with
  | AStr s, _ => (s, "FUZZY"%string)
  | _, AStr s => (s, "FREGEX"%string)
  | _, _ => (""%string, ""%string)
  end.

(** [seq[i]] *)
Definition seq_item (seq : list Token) (i : nat) : res Token :=
  match seq !! i with
  | Some t => Ok t
  | None => Raise IndexError
  end.

(** The body of the loop of [_iter_pattern] for the token-spec at position
    [i]: the slot result to append, or [None] when the slot rejects the
    window ([return []]). *)
Definition slot_result (seq : list Token) (min_r : Z) (fuzzy_func : string)
    (i : nat) (token : TokenSpec) : res (option slot) :=
  let '(pattern_dict, case, case_bool) := _parse_case token in
  match pattern_dict with
  | VDict pattern_dict =>
      let '(pattern_text, pattern_type) := _parse_type pattern_dict in
      if str_truthy pattern_text && bool_decide (pattern_type = "FUZZY"%string)
      then
        let min_r_ := dict_get_or pattern_dict "MIN_R" (AInt min_r) in
        tok ← seq_item seq i;
        ratio ← fuzzy_compare (text tok) pattern_text case_bool min_r_
                  (dict_get_or pattern_dict "FUZZY_FUNC" (AStr fuzzy_func));
        bound ← as_int min_r_;
        if bound <=? ratio then Ok (Some (Some (case, text tok))) else Ok None
      else if str_truthy pattern_text && bool_decide (pattern_type = "FREGEX"%string)
      then
        tok ← seq_item seq i;
        if regex_compare (text tok) pattern_text case_bool
        then Ok (Some (Some (case, text tok)))
        else Ok None
      else Ok (Some None)
  | VAtom _ => Ok (Some None)
  end.

(** The loop of [_iter_pattern] from position [i] on, with the slot results
    [seq_matches] gathered so far. *)
Fixpoint iter_from (seq : list Token) (min_r : Z) (fuzzy_func : string)
    (i : nat) (tokens : Pattern) (seq_matches : candidate) : res candidate :=
  match tokens with
  | [] => Ok seq_matches
  | token :: rest =>
      r ← slot_result seq min_r fuzzy_func i token;
      match r with
      | Some s => iter_from seq min_r fuzzy_func (S i) rest (seq_matches ++ [s])
      | None => Ok []
      end
  end.

Definition _iter_pattern (seq : list Token) (pattern : Pattern)
    (min_r : Z) (fuzzy_func : string) : res candidate :=
  iter_from seq min_r fuzzy_func 0 pattern [].

(** The loop of [match] over the windows: a window's slot results are kept
    when the list is not empty. *)
Fixpoint scan (pattern : Pattern) (min_r : Z) (fuzzy_func : string)
    (windows : list (list Token)) (matches : list candidate)
    : res (list candidate) :=
  match windows with
  | [] => Ok matches
  | seq :: rest =>
      seq_matches ← _iter_pattern seq pattern min_r fuzzy_func;
      scan pattern min_r fuzzy_func rest
        (match seq_matches with
         | [] => matches
         | _ => matches ++ [seq_matches]
         end)
  end.

(** [[match for i, match in enumerate(matches) if match not in matches[:i]]] *)
Definition first_seen {A} `{EqDecision A} (matches : list A) : list A :=
  (filter (λ im : nat * A, im.2 ∉ take im.1 matches) (imap pair matches)).*2.

(** [match(doc, pattern, min_r=75, fuzzy_func="simple")]. That [doc] is a
    [Doc] and [pattern] a list is what the types say. *)
Definition match_ (doc : Doc) (pattern : Pattern)
    (min_r : Z) (fuzzy_func : string) : res (list candidate) :=
  if bool_decide (length pattern = 0%nat) then Raise ValueError
  else
    matches ← scan pattern min_r fuzzy_func (n_wise doc (length pattern)) [];
    mret (first_seen matches).

End Searcher.
End TokenSearcher.

(** ** The token matcher *)

Module TokenMatcher.
Import TokenSearcher.

(** A match, [(label, start, end, ratio, pattern)]. *)
Record match_record : Type := mkMatch {
  label : string;
  start : Z;
  end_ : Z;
  ratio : Z;
  pattern_id : string;
}.

#[global] Instance match_record_eq_dec : EqDecision match_record.
Proof. solve_decision. Defined.

(** An [on_match] function, by what it does to the document when called
    with the document, the index [i] and the list of matches (the matcher
    it is also handed is left out). *)
Definition callback : Type := Doc -> nat -> list match_record -> Doc.

(** [TokenCallback = Optional[Callable[...]]] *)
Definition TokenCallback : Type := option callback.

(** The keyword arguments given to the constructor, passed on to
    [TokenSearcher.match]. *)
Record Defaults : Type := mkDefaults {
  min_r : option Z;
  fuzzy_func : option string;
}.

Record state : Type := mkState {
  defaults : Defaults;
  _callbacks : gmap string TokenCallback;
  _patterns : gmap string (list Pattern);
}.

(** [TokenMatcher(vocab, **defaults)] *)
Definition __init__ (defaults : Defaults) : state :=
  {| defaults := defaults; _callbacks := ∅; _patterns := ∅ |}.

(** What a caller hands to [add] as one pattern: a list of token-specs, or
    (mistakenly) a single dictionary. *)
Inductive pattern_arg : Type :=
  | PList (p : Pattern)
  | PDict (d : TokenSpec).

Definition len (p : pattern_arg) : nat :=
  match p with
  | PList p => length p
  | PDict d => size d
  end.

(** [self._patterns[label].append(list(pattern))], on a [DefaultDict(list)] *)
Definition append_pattern (label : string) (p : Pattern) (m : state) : state :=
  {| defaults := defaults m;
     _callbacks := _callbacks m;
     _patterns := <[label := default [] (_patterns m !! label) ++ [p]]> (_patterns m) |}.

(** The loop of [add]. The matcher is returned next to the result: what was
    appended before an exception stays appended. *)
Fixpoint add_patterns (label : string) (patterns : list pattern_arg) (m : state)
    : res unit * state :=
  match patterns with
  | [] => (Ok (), m)
  | pattern :: rest =>
      if bool_decide (len pattern = 0%nat) then (Raise ValueError, m)
      else
        match pattern with
        | PList p => add_patterns label rest (append_pattern label p m)
        | PDict _ => (Raise TypeError, m)
        end
  end.

Definition add (label : string) (patterns : list pattern_arg)
    (on_match : TokenCallback) (m : state) : res unit * state :=
  match add_patterns label patterns m with
  | (Ok _, m') =>
      (Ok (),
       {| defaults := defaults m';
          _callbacks := <[label := on_match]> (_callbacks m');
          _patterns := _patterns m' |})
  | (Raise e, m') => (Raise e, m')
  end.

(** [del] of the patterns, then of the callback; a [KeyError] of either is
    turned into a [ValueError]. *)
Definition remove (label : string) (m : state) : res unit * state :=
  match _patterns m !! label with
  | None => (Raise ValueError, m)
  | Some _ =>
      let m' := {| defaults := defaults m;
                   _callbacks := _callbacks m;
                   _patterns := delete label (_patterns m) |} in
      match _callbacks m !! label with
      | None => (Raise ValueError, m')
      | Some _ =>
          (Ok (),
           {| defaults := defaults m;
              _callbacks := delete label (_callbacks m);
              _patterns := delete label (_patterns m) |})
      end
  end.

Definition __contains__ (m : state) (label : string) : bool :=
  bool_decide (is_Some (_patterns m !! label)).

Definition __len__ (m : state) : nat := size (_patterns m).

Definition labels (m : state) : list string := (map_to_list (_patterns m)).*1.

(** An entry of the [patterns] property,
    [{"label": label, "pattern": pattern, "type": self.type}]. *)
Record pattern_entry : Type := mkEntry {
  entry_label : string;
  entry_pattern : Pattern;
  entry_type : string;
}.

(** [patterns]: one entry for each pattern of each label; [self.type] is
    set to ["token"] by the constructor and never assigned again. The
    labels come in the order of the finite map, which is not Python's
    insertion order; the patterns of one label come in their own order. *)
Definition patterns (m : state) : list pattern_entry :=
  '(label, ps) ← map_to_list (_patterns m);
  pattern ← ps;
  [mkEntry label pattern "token"].

(** [__reduce__]: the data handed to [unpickle_matcher] (the class and the
    vocabulary left out). *)
Definition __reduce__ (m : state)
    : gmap string (list Pattern) * gmap string TokenCallback * Defaults :=
  (_patterns m, _callbacks m, defaults m).

(** The loop of [unpickle_matcher]: each label is added with its patterns
    and with [callbacks.get(key)]. *)
Fixpoint add_rules (rules : list (string * list Pattern))
    (callbacks : gmap string TokenCallback) (m : state) : res unit * state :=
  match rules with
  | [] => (Ok (), m)
  | (key, specs) :: rest =>
      match add key (PList <$> specs) (default None (callbacks !! key)) m with
      | (Ok _, m') => add_rules rest callbacks m'
      | (Raise e, m') => (Raise e, m')
      end
  end.

Definition unpickle_matcher (patterns : gmap string (list Pattern))
    (callbacks : gmap string TokenCallback) (defaults : Defaults)
    : res unit * state :=
  add_rules (map_to_list patterns) callbacks (__init__ defaults).

(** [t[i]] on a slot result: [None] is not subscriptable, and a pair has the
    indices 0 and 1. *)
Definition subscript (t : slot) (i : nat) : res string :=
  match t with
  | None => Raise TypeError
  | Some (case, txt) =>
      match i with
      | O => Ok case
      | S O => Ok txt
      | _ => Raise IndexError
      end
  end.

(** The loop of [_spacyfy] from position [i] on. *)
Fixpoint spacyfy_from (i : nat) (match_ : candidate) (new_pattern : Pattern)
    : res Pattern :=
  match match_ with
  | [] => Ok new_pattern
  | token :: rest =>
      key ← subscript token 0;
      if str_truthy key then
        match new_pattern !! i with
        | None => Raise IndexError
        | Some spec =>
            match spec !! key with
            | None => Raise KeyError
            | Some _ =>
                txt ← subscript token 1;
                spacyfy_from (S i) rest
                  (<[i := <["TEXT"%string := VAtom (AStr txt)]> (delete key spec)]>
                     new_pattern)
            end
        end
      else spacyfy_from (S i) rest new_pattern
  end.

Definition _spacyfy (match_ : candidate) (pattern : Pattern) : res Pattern :=
  spacyfy_from 0 match_ pattern.

(** [x / n] for a string [x]: unsupported operand types. *)
Definition str_truediv (x : string) (n : Z) : res Q := Raise TypeError.

(** [doc[start:end]] *)
Definition doc_slice (doc : Doc) (start end_ : nat) : list Token :=
  take (end_ - start) (drop start doc).

(** The sum over [zip(doc[start:end], spaczz_match)], term by term; in each
    term [token_match[2]] is evaluated first, then the division by the total
    length, then the product with [len(token)]. *)
Fixpoint sum_terms (total : Z) (pairs : list (Token * slot)) (acc : Q) : res Q :=
  match pairs with
  | [] => Ok acc
  | (token, token_match) :: rest =>
      r ← subscript token_match 2;
      q ← str_truediv r total;
      sum_terms total rest (acc + q * inject_Z (token_len token))%Q
  end.

(** The ratio recorded for the span [doc[start:end]] found from the
    candidate [spaczz_match]. *)
Definition span_ratio (doc : Doc) (start end_ : nat) (spaczz_match : candidate)
    : res Z :=
  let span := doc_slice doc start end_ in
  let total := foldr Z.add 0 (token_len <$> span) in
  s ← sum_terms total (zip span spaczz_match) 0%Q;
  mret (py_round s).

(** [for x in xs: ...] with a body that may raise. *)
Fixpoint for_each {A S : Type} (body : A -> S -> res S) (xs : list A) (s : S)
    : res S :=
  match xs with
  | [] => Ok s
  | x :: rest => s' ← body x s; for_each body rest s'
  end.

(** [matches.add(r)], the set kept as the list of its distinct elements.
    The order in which Python iterates over a set is not specified; what is
    proved of [sorted_reverse] below holds for every list. *)
Definition set_add (r : match_record) (matches : list match_record)
    : list match_record :=
  if decide (r ∈ matches) then matches else matches ++ [r].

(** The sort key [(-x[1], x[2] - x[1], x[3])] and the order of tuples. *)
Definition sort_key (x : match_record) : Z * Z * Z :=
  (- start x, end_ x - start x, ratio x).

Definition key_leb (a b : Z * Z * Z) : bool :=
  let '(a1, a2, a3) := a in
  let '(b1, b2, b3) := b in
  (a1 <? b1) || ((a1 =? b1) && ((a2 <? b2) || ((a2 =? b2) && (a3 <=? b3)))).

(** A stable sort by ascending key. *)
Fixpoint insert_by_key (x : match_record) (l : list match_record)
    : list match_record :=
  match l with
  | [] => [x]
  | y :: l' =>
      if key_leb (sort_key x) (sort_key y) then x :: l
      else y :: insert_by_key x l'
  end.

Definition sort_ascending (l : list match_record) : list match_record :=
  foldr insert_by_key [] l.

(** [sorted(matches, key=..., reverse=True)]: the list is reversed, sorted
    by ascending key keeping equal keys in order, and reversed again. *)
Definition sorted_reverse (matches : list match_record) : list match_record :=
  reverse (sort_ascending (reverse matches)).

Section Matcher.
Context `{External}.

(** The matches of one candidate of one pattern, added to [matches]. *)
Definition match_candidate (doc : Doc) (label : string) (pattern : Pattern)
    (spaczz_match : candidate) (matches : list match_record)
    : res (list match_record) :=
  concrete ← _spacyfy spaczz_match pattern;
  spacy_matches ← Matcher label concrete doc;
  for_each
    (λ '(start, end_) matches,
       r ← span_ratio doc start end_ spaczz_match;
       mret (set_add (mkMatch label (Z.of_nat start) (Z.of_nat end_) r
                        (json_dumps pattern)) matches))
    spacy_matches matches.

Definition match_pattern (m : state) (doc : Doc) (label : string)
    (pattern : Pattern) (matches : list match_record)
    : res (list match_record) :=
  spaczz_matches ← match_ doc pattern
    (default 75 (min_r (defaults m)))
    (default "simple"%string (fuzzy_func (defaults m)));
  for_each (match_candidate doc label pattern) spaczz_matches matches.

(** The set of matches gathered by the first loop of [__call__]. *)
Definition collect (m : state) (doc : Doc) : res (list match_record) :=
  for_each
    (λ '(label, patterns) matches,
       for_each (match_pattern m doc label) patterns matches)
    (map_to_list (_patterns m)) [].

(** The calls the second loop of [__call__] makes: the [on_match] of each
    match's label, when there is one, with the match's index. *)
Definition callback_calls (m : state) (sorted_matches : list match_record)
    : list (callback * nat) :=
  omap (λ '(i, r), match default None (_callbacks m !! label r) with
                   | Some on_match => Some (on_match, i)
                   | None => None
                   end)
       (imap pair sorted_matches).

Definition dispatch (m : state) (doc : Doc) (sorted_matches : list match_record)
    : Doc :=
  foldl (λ doc '(on_match, i), on_match doc i sorted_matches)
        doc (callback_calls m sorted_matches).

(** [matcher(doc)]: the sorted matches, and the document after the
    callbacks have run. *)
Definition __call__ (m : state) (doc : Doc) : res (list match_record * Doc) :=
  matches ← collect m doc;
  let sorted_matches := sorted_reverse matches in
  mret (sorted_matches, dispatch m doc sorted_matches).

End Matcher.
End TokenMatcher.

(** ** A concrete set of collaborators

    Used to run the model on concrete inputs: ASCII lower-casing; a registry
    holding ["simple"] as the normalized indel similarity
    [100 * 2 * lcs / (len s1 + len s2)]; regular expressions restricted to
    literal patterns (a match is a prefix); an exact matcher restricted to
    literal [TEXT] and [LOWER] constraints. *)

Module Sample.

Definition lower_ascii (c : ascii) : ascii :=
  let n := nat_of_ascii c in
  if ((65 <=? n) && (n <=? 90))%nat then ascii_of_nat (n + 32) else c.

Fixpoint lower (s : string) : string :=
  match s with
  | EmptyString => EmptyString
  | String c rest => String (lower_ascii c) (lower rest)
  end.

(** The length of a longest common subsequence. *)
Fixpoint lcs (a b : list ascii) : nat :=
  match a with
  | [] => 0%nat
  | x :: a' =>
      (fix inner (b : list ascii) : nat :=
         match b with
         | [] => 0%nat
         | y :: b' =>
             if bool_decide (x = y) then S (lcs a' b')
             else Nat.max (lcs a' b) (inner b')
         end) b
  end.

Definition indel_ratio (s1 s2 : string) : Q :=
  let total := (String.length s1 + String.length s2)%nat in
  match total with
  | O => 100%Q
  | _ =>
      Qmake (200 * Z.of_nat (lcs (list_ascii_of_string s1) (list_ascii_of_string s2)))
            (Pos.of_nat total)
  end.

Definition registry (name : string) : option (string -> string -> Q) :=
  if bool_decide (name = "simple"%string) then Some indel_ratio else None.

Definition literal_prefix (pattern text : string) : bool :=
  String.prefix pattern text.

(** Whether a token meets a token-spec made of literal [TEXT] and [LOWER]
    constraints; a spec with anything else is met by no token. *)
Definition literal_holds (tok : Token) (spec : TokenSpec) : bool :=
  forallb
    (λ kv : string * value,
       match kv with
       | (k, VAtom (AStr s)) =>
           if bool_decide (k = "TEXT"%string) then bool_decide (s = text tok)
           else if bool_decide (k = "LOWER"%string)
                then bool_decide (s = lower (text tok))
                else false
       | _ => false
       end)
    (map_to_list spec).

Definition literal_matcher (label : string) (pattern : Pattern) (doc : Doc)
    : res (list (nat * nat)) :=
  Ok (omap
        (λ '(i, window),
           if forallb (λ '(tok, spec), literal_holds tok spec) (zip window pattern)
           then Some (i, (i + length pattern)%nat)
           else None)
        (imap pair (n_wise doc (length pattern)))).

Definition show_atom (a : atom) : string :=
  match a with
  | ANone => "null"
  | ABool true => "true"
  | ABool false => "false"
  | AInt z => pretty z
  | AStr s => String "034" s +:+ String "034" EmptyString
  end.

Definition show_entries {V} (show : V -> string) (kvs : list (string * V)) : string :=
  foldr (λ '(k, v) acc, k +:+ ":" +:+ show v +:+ "," +:+ acc) EmptyString kvs.

Definition show_value (v : value) : string :=
  match v with
  | VAtom a => show_atom a
  | VDict d => "{" +:+ show_entries show_atom (map_to_list d) +:+ "}"
  end.

Definition dumps (pattern : Pattern) : string :=
  foldr (λ spec acc,
           "{" +:+ show_entries show_value (map_to_list spec) +:+ "}" +:+ acc)
        EmptyString pattern.

#[export] Instance external : External := {|
  str_lower := lower;
  fuzzy_funcs := registry;
  regex_match := literal_prefix;
  Matcher := literal_matcher;
  json_dumps := dumps;
|}.

Definition tokens (words : list string) : Doc := mkToken <$> words.

End Sample.

Import TokenSearcher TokenMatcher.

(** ** Vocabulary of the statements *)

(** [x] is at index [k] of [l] and nowhere before. *)
Definition first_at {A} (l : list A) (x : A) (k : nat) : Prop :=
  l !! k = Some x ∧ ∀ k', (k' < k)%nat → l !! k' ≠ Some x.

(** The rule table once the patterns [accepted] have been appended under
    [label], one [append_pattern] after the other. *)
Definition with_patterns (label : string) (accepted : list Pattern)
    (table : gmap string (list Pattern)) : gmap string (list Pattern) :=
  match accepted with
  | [] => table
  | _ => <[label := default [] (table !! label) ++ accepted]> table
  end.


(** The order of the matches returned: by ascending start, then by
    descending length of the span, then by descending ratio. *)
Definition comes_before (a b : match_record) : Prop :=
  start a < start b ∨
  (start a = start b ∧
   (end_ a - start a > end_ b - start b ∨
    (end_ a - start a = end_ b - start b ∧ ratio a >= ratio b))).

(** Every pattern in the rule table has at least one token-spec, and no
    label is there with an empty list. *)
Definition well_formed (m : state) : Prop :=
  ∀ label ps, _patterns m !! label = Some ps →
    ps ≠ [] ∧ Forall (λ p : Pattern, p ≠ []) ps.

(** Whether the searcher evaluates a token-spec against the window: its
    governing value is a constraint object with a non-empty [FUZZY] or
    [FREGEX] string. *)
Definition evaluated (token : TokenSpec) : bool :=
  match _parse_case token with
  | (VDict d, _, _) =>
      let '(pattern_text, pattern_type) := _parse_type d in
      str_truthy pattern_text &&
      (bool_decide (pattern_type = "FUZZY"%string) ||
       bool_decide (pattern_type = "FREGEX"%string))
  | (VAtom _, _, _) => false
  end.

(** A pattern that [add] accepts: a list with at least one token-spec. *)
Definition valid_pattern (p : pattern_arg) : Prop :=
  ∃ l, p = PList l ∧ l ≠ [].

Section Vocabulary.
Context `{External}.

(** The window of index [k] is the first, from the left, for which
    [_iter_pattern] returns the candidate [c]. *)
Definition first_produced_at (doc : Doc) (pattern : Pattern) (min_r : Z)
    (fuzzy_func : string) (c : candidate) (k : nat) : Prop :=
  first_at ((λ seq, _iter_pattern seq pattern min_r fuzzy_func)
              <$> n_wise doc (length pattern)) (Ok c) k.

End Vocabulary.

(** ** Concrete inputs *)

Module Examples.
Local Open Scope string_scope.

Definition fresh : state := __init__ (mkDefaults None None).

(** [[{"TEXT": {"FUZZY": "Garfield"}}]] *)
Definition garfield_pattern : Pattern :=
  [ {[ "TEXT" := VDict {[ "FUZZY" := AStr "Garfield" ]} ]} ].

Definition garfield_matcher : state :=
  (add "NAME" [PList garfield_pattern] None fresh).2.

Definition garfield_doc : Doc := Sample.tokens ["name"; "is"; "Grfield"].

(** [[{"TEXT": "SQL"}, {"LOWER": {"FUZZY": "access"}}]] *)
Definition sql_pattern : Pattern :=
  [ {[ "TEXT" := VAtom (AStr "SQL") ]};
    {[ "LOWER" := VDict {[ "FUZZY" := AStr "access" ]} ]} ].

Definition sql_matcher : state := (add "DATA" [PList sql_pattern] None fresh).2.

Definition sql_doc : Doc := Sample.tokens ["SQL"; "acess"].

(** [[{"LOWER": {"FUZZY": "access"}}]] *)
Definition access_pattern : Pattern :=
  [ {[ "LOWER" := VDict {[ "FUZZY" := AStr "access" ]} ]} ].

Definition shout_doc : Doc := Sample.tokens ["ACCESS"].

Definition typo_doc : Doc := Sample.tokens ["acess"; "acess"; "access"].

Definition typo_cands : list candidate :=
  [ [Some ("LOWER", "acess")]; [Some ("LOWER", "access")] ].

(** [{"TEXT": "", "LOWER": {"FUZZY": "abc"}}] *)
Definition empty_text_spec : TokenSpec :=
  {[ "TEXT" := VAtom (AStr ""); "LOWER" := VDict {[ "FUZZY" := AStr "abc" ]} ]}.

(** [{"LOWER": {"FREGEX": "ABC"}}] and [{"TEXT": {"FREGEX": "ABC"}}] *)
Definition lower_regex_spec : TokenSpec :=
  {[ "LOWER" := VDict {[ "FREGEX" := AStr "ABC" ]} ]}.

Definition text_regex_spec : TokenSpec :=
  {[ "TEXT" := VDict {[ "FREGEX" := AStr "ABC" ]} ]}.

(** [{"LOWER": {"FUZZY": "abc"}, "POS": "NOUN"}] *)
Definition lower_spec : TokenSpec :=
  {[ "LOWER" := VDict {[ "FUZZY" := AStr "abc" ]}; "POS" := VAtom (AStr "NOUN") ]}.

(** [{"TEXT": {"FUZZY": "abc", "FREGEX": "x"}}] *)
Definition both_dict : gmap string atom :=
  {[ "FUZZY" := AStr "abc"; "FREGEX" := AStr "x" ]}.

Definition both_spec : TokenSpec := {[ "TEXT" := VDict both_dict ]}.

(** [[{"TEXT": "test"}]] *)
Definition test_pattern : Pattern := [ {[ "TEXT" := VAtom (AStr "test") ]} ].

(** [[{"TEXT": {"FUZZY": ""}}]] *)
Definition empty_target_pattern : Pattern :=
  [ {[ "TEXT" := VDict {[ "FUZZY" := AStr "" ]} ]} ].

Definition quiet_doc : Doc := Sample.tokens ["no"; "match"].

(** [[{"TEXT": "SQL"}, {"POS": "NOUN"}]] *)
Definition literal_pattern : Pattern :=
  [ {[ "TEXT" := VAtom (AStr "SQL") ]}; {[ "POS" := VAtom (AStr "NOUN") ]} ].

(** [{"TEXT": {"FUZZY": "abc"}}] *)
Definition abc_spec : TokenSpec :=
  {[ "TEXT" := VDict {[ "FUZZY" := AStr "abc" ]} ]}.

(** [{"TEXT": {"FUZZY": "x", "FUZZY_FUNC": "nope"}}] *)
Definition unregistered_spec : TokenSpec :=
  {[ "TEXT" := VDict {[ "FUZZY" := AStr "x"; "FUZZY_FUNC" := AStr "nope" ]} ]}.

(** [{"TEXT": {"FUZZY": "abc", "MIN_R": 0}}] *)
Definition zero_cutoff_dict : gmap string atom :=
  {[ "FUZZY" := AStr "abc"; "MIN_R" := AInt 0 ]}.

Definition zero_cutoff_spec : TokenSpec := {[ "TEXT" := VDict zero_cutoff_dict ]}.

Definition unsorted : list match_record :=
  [ mkMatch "A" 4 7 90 "p"; mkMatch "B" 0 2 80 "q";
    mkMatch "C" 4 6 95 "r"; mkMatch "D" 4 7 95 "s" ].

End Examples.

(** ** The searcher returns distinct candidates in first-seen order *)

Lemma filter_agree {B} (P Q : B → Prop) `{!∀ x, Decision (P x), !∀ x, Decision (Q x)}
    (l : list B) :
  (∀ x, x ∈ l → P x ↔ Q x) → filter P l = filter Q l.
Proof.
  induction l as [|x l IH]; intros Hpq; [done|].
  rewrite !filter_cons.
  rewrite IH by (intros y Hy; apply Hpq; by right).
  destruct (decide (P x)) as [HP|HP], (decide (Q x)) as [HQ|HQ]; try done;
    exfalso; apply (Hpq x) in HP || apply (Hpq x) in HQ; try done; by left.
Qed.

Section FirstSeen.
Context {A : Type} `{EqDecision A}.

Lemma first_seen_snoc (l : list A) (x : A) :
  first_seen (l ++ [x]) = first_seen l ++ (if decide (x ∈ l) then [] else [x]).
Proof.
  unfold first_seen.
  rewrite imap_app, filter_app, fmap_app. f_equal.
  - f_equal. apply filter_agree. intros [i y] Hin.
    apply elem_of_lookup_imap_1 in Hin as (j & z & [= -> ->] & Hj). simpl.
    apply lookup_lt_Some in Hj.
    by rewrite take_app_le by lia.
  - simpl. rewrite Nat.add_0_r, filter_cons, filter_nil. simpl.
    rewrite take_app_length.
    destruct (decide (x ∉ l)), (decide (x ∈ l)); done.
Qed.

Lemma first_seen_nil : first_seen (@nil A) = [].
Proof. done. Qed.

Lemma elem_of_first_seen (l : list A) (x : A) : x ∈ first_seen l ↔ x ∈ l.
Proof.
  induction l as [|y l IH] using rev_ind; [done|].
  rewrite first_seen_snoc, !elem_of_app, IH.
  destruct (decide (y ∈ l)) as [Hy|Hy].
  - rewrite elem_of_nil, list_elem_of_singleton.
    split.
    + intros [Hl|Hn]; [by left|done].
    + intros [Hl|Hxy]; [by left|]. left. by rewrite Hxy.
  - done.
Qed.

Lemma NoDup_first_seen (l : list A) : NoDup (first_seen l).
Proof.
  induction l as [|y l IH] using rev_ind; [constructor|].
  rewrite first_seen_snoc. destruct (decide (y ∈ l)).
  - by rewrite app_nil_r.
  - apply NoDup_app. split; [done|]. split; [|apply NoDup_singleton].
    intros x Hx Hxy. apply list_elem_of_singleton in Hxy as ->.
    rewrite elem_of_first_seen in Hx. done.
Qed.

Lemma first_at_snoc (l : list A) (x y : A) (k : nat) :
  first_at l x k → first_at (l ++ [y]) x k.
Proof.
  intros [Hk Hbefore]. pose proof (lookup_lt_Some _ _ _ Hk). split.
  - by rewrite lookup_app_l.
  - intros k' Hlt. rewrite lookup_app_l by lia. by apply Hbefore.
Qed.

Lemma first_at_fresh (l : list A) (x : A) :
  x ∉ l → first_at (l ++ [x]) x (length l).
Proof.
  intros Hx. split.
  - by rewrite list_lookup_middle.
  - intros k' Hlt. rewrite lookup_app_l by done.
    intros Hk. apply Hx. by eapply list_elem_of_lookup_2.
Qed.

Lemma first_at_exists (l : list A) (x : A) : x ∈ l → ∃ k, first_at l x k.
Proof.
  induction l as [|y l IH] using rev_ind; [by intros ?%elem_of_nil|].
  intros Hin. destruct (decide (x ∈ l)) as [Hl|Hl].
  - destruct (IH Hl) as [k Hk]. exists k. by apply first_at_snoc.
  - apply elem_of_app in Hin as [?| ->%list_elem_of_singleton]; [done|].
    exists (length l). by apply first_at_fresh.
Qed.

(** Keeping the elements that satisfy [P] and then the first occurrences:
    the elements come in the order of their first occurrences in [l]. *)
Lemma first_seen_filter_order (P : A → Prop) `{!∀ x, Decision (P x)}
    (l : list A) (i j : nat) (a b : A) :
  (i < j)%nat →
  first_seen (filter P l) !! i = Some a →
  first_seen (filter P l) !! j = Some b →
  ∃ ka kb, (ka < kb)%nat ∧ first_at l a ka ∧ first_at l b kb.
Proof.
  revert i j a b. induction l as [|y l IH] using rev_ind; intros i j a b Hij.
  { by rewrite filter_nil, first_seen_nil. }
  rewrite filter_app, filter_cons, filter_nil.
  destruct (decide (P y)) as [HP|HP]; cycle 1.
  { rewrite app_nil_r. intros Ha Hb.
    destruct (IH i j a b Hij Ha Hb) as (ka & kb & ? & ? & ?).
    exists ka, kb. eauto using first_at_snoc. }
  rewrite first_seen_snoc.
  destruct (decide (y ∈ filter P l)) as [Hy|Hy].
  { rewrite app_nil_r. intros Ha Hb.
    destruct (IH i j a b Hij Ha Hb) as (ka & kb & ? & ? & ?).
    exists ka, kb. eauto using first_at_snoc. }
  assert (y ∉ l) as Hyl.
  { intros Hin. apply Hy. by apply list_elem_of_filter. }
  intros Ha Hb.
  destruct (decide (j < length (first_seen (filter P l)))%nat) as [Hj|Hj].
  - rewrite lookup_app_l in Ha, Hb by lia.
    destruct (IH i j a b Hij Ha Hb) as (ka & kb & ? & ? & ?).
    exists ka, kb. eauto using first_at_snoc.
  - pose proof (lookup_lt_Some _ _ _ Hb) as Hlen.
    rewrite length_app in Hlen. simpl in Hlen.
    assert (j = length (first_seen (filter P l))) as -> by lia.
    rewrite list_lookup_middle in Hb by done. injection Hb as <-.
    rewrite lookup_app_l in Ha by lia.
    apply list_elem_of_lookup_2 in Ha.
    rewrite elem_of_first_seen, list_elem_of_filter in Ha. destruct Ha as [_ Ha].
    destruct (first_at_exists _ _ Ha) as [ka Hka].
    exists ka, (length l). split_and!.
    + destruct Hka as [Hka _]. by apply lookup_lt_Some in Hka.
    + by apply first_at_snoc.
    + by apply first_at_fresh.
Qed.

End FirstSeen.

Lemma first_at_fmap {A B} (f : A → B) `{!Inj (=) (=) f} (l : list A) (x : A) (k : nat) :
  first_at l x k → first_at (f <$> l) (f x) k.
Proof.
  intros [Hk Hbefore]. split.
  - by rewrite list_lookup_fmap, Hk.
  - intros k' Hlt. rewrite list_lookup_fmap.
    destruct (l !! k') as [y|] eqn:Hy; [|done].
    simpl. intros [= Heq%(inj f)]. subst y. by eapply Hbefore.
Qed.

#[local] Instance Ok_inj {A} : Inj (=) (=) (@Ok A).
Proof. by intros x y [= ->]. Qed.

Section SearcherFacts.
Context `{External}.

(** [scan] returns when every window does, with the non-empty results in
    the order of the windows. *)
Lemma scan_Ok (pattern : Pattern) (min_r : Z) (ff : string)
    (windows : list (list Token)) (acc ms : list candidate) :
  scan pattern min_r ff windows acc = Ok ms ↔
  ∃ results,
    (λ seq, _iter_pattern seq pattern min_r ff) <$> windows = Ok <$> results ∧
    ms = acc ++ filter (λ c, c ≠ []) results.
Proof.
  revert acc ms. induction windows as [|seq windows IH]; intros acc ms; simpl.
  - split.
    + intros [= <-]. exists []. by rewrite filter_nil, app_nil_r.
    + intros (results & Hres & ->). destruct results; [|done].
      by rewrite filter_nil, app_nil_r.
  - destruct (_iter_pattern seq pattern min_r ff) as [c|e] eqn:Hc; simpl.
    + rewrite IH. split.
      * intros (results & Hres & ->). exists (c :: results). split.
        { simpl. f_equal. exact Hres. }
        rewrite filter_cons. destruct c; simpl; [done|].
        by rewrite <-app_assoc.
      * intros (results & Hres & ->).
        destruct results as [|c' results]; [done|].
        simpl in Hres. injection Hres as Hcc Hres. subst c'.
        exists results. split; [exact Hres|].
        rewrite filter_cons. destruct c; simpl; [done|].
        by rewrite <-app_assoc.
    + split; [done|]. intros (results & Hres & _).
      by destruct results.
Qed.

(** The candidates [match] returns, by the windows that produce them. *)
Lemma match_Ok (doc : Doc) (pattern : Pattern) (min_r : Z) (ff : string)
    (cands : list candidate) :
  match_ doc pattern min_r ff = Ok cands ↔
  pattern ≠ [] ∧
  ∃ results,
    (λ seq, _iter_pattern seq pattern min_r ff) <$> n_wise doc (length pattern)
      = Ok <$> results ∧
    cands = first_seen (filter (λ c, c ≠ []) results).
Proof.
  unfold match_. case_bool_decide as Hlen.
  { destruct pattern; [|done]. by split; [|intros [? _]]. }
  assert (pattern ≠ []) as Hne by (by intros ->).
  destruct (scan _ _ _ _ _) as [ms|] eqn:Hscan; simpl.
  - apply scan_Ok in Hscan as (results & Hres & ->). rewrite app_nil_l.
    split.
    + intros [= <-]. eauto.
    + intros (_ & results' & Hres' & ->).
      rewrite Hres in Hres'. apply (inj (fmap Ok)) in Hres'. by subst.
  - split; [done|]. intros (_ & results & Hres & _).
    assert (scan pattern min_r ff (n_wise doc (length pattern)) [] =
            Ok ([] ++ filter (λ c, c ≠ []) results)) as Hok.
    { apply scan_Ok. eauto. }
    by rewrite Hscan in Hok.
Qed.

(** Which candidates [match] returns. *)
Lemma elem_of_match (doc : Doc) (pattern : Pattern) (min_r : Z) (ff : string)
    (cands : list candidate) (c : candidate) :
  match_ doc pattern min_r ff = Ok cands →
  c ∈ cands ↔
  c ≠ [] ∧ ∃ seq, seq ∈ n_wise doc (length pattern) ∧
                  _iter_pattern seq pattern min_r ff = Ok c.
Proof.
  intros (_ & results & Hres & ->)%match_Ok.
  rewrite elem_of_first_seen, list_elem_of_filter.
  split; intros [Hne Hc]; (split; [done|]).
  - apply list_elem_of_lookup in Hc as [k Hk].
    assert (((λ seq, _iter_pattern seq pattern min_r ff) <$>
               n_wise doc (length pattern)) !! k = Some (Ok c)) as Hw.
    { by rewrite Hres, list_lookup_fmap, Hk. }
    rewrite list_lookup_fmap in Hw.
    destruct (n_wise doc (length pattern) !! k) as [seq|] eqn:Hseq; [|done].
    exists seq. split; [by eapply list_elem_of_lookup_2|]. by injection Hw.
  - destruct Hc as (seq & Hseq & Hc).
    assert (Ok c ∈ (Ok <$> results : list (res candidate))) as Hin.
    { rewrite <-Hres. apply list_elem_of_fmap. by exists seq. }
    by apply list_elem_of_fmap_inj_2 in Hin; [|apply _].
Qed.

(** C7. The candidates returned by [match] are pairwise distinct; they are
    the non-empty results of the windows; and they come in first-seen order:
    of two candidates, the earlier in the list is the one whose first
    producing window is further left. *)
Theorem match_first_seen (doc : Doc) (pattern : Pattern) (min_r : Z)
    (ff : string) (cands : list candidate) :
  match_ doc pattern min_r ff = Ok cands →
  NoDup cands ∧
  (∀ c, c ∈ cands ↔
        c ≠ [] ∧ ∃ seq, seq ∈ n_wise doc (length pattern) ∧
                        _iter_pattern seq pattern min_r ff = Ok c) ∧
  (∀ i j a b, (i < j)%nat → cands !! i = Some a → cands !! j = Some b →
     ∃ ka kb, (ka < kb)%nat ∧
       first_produced_at doc pattern min_r ff a ka ∧
       first_produced_at doc pattern min_r ff b kb).
Proof.
  intros Hmatch. split_and!.
  - apply match_Ok in Hmatch as (_ & results & _ & ->).
    apply NoDup_first_seen.
  - intros c. by apply elem_of_match.
  - apply match_Ok in Hmatch as (_ & results & Hres & ->).
    intros i j a b Hij Ha Hb.
    destruct (first_seen_filter_order _ _ _ _ _ _ Hij Ha Hb)
      as (ka & kb & Hlt & Hka & Hkb).
    exists ka, kb. unfold first_produced_at. rewrite Hres.
    split_and!; [done| |]; by apply first_at_fmap; [apply _|].
Qed.

End SearcherFacts.

(** ** The threshold of a fuzzy slot *)

Lemma py_round_floor (q : Q) : Qfloor q ≤ py_round q.
Proof.
  unfold py_round. destruct (_ ?= _)%Q; [destruct (Z.even _)|..]; lia.
Qed.

Lemma py_round_ge (q : Q) (c : Z) : (inject_Z c <= q)%Q → c ≤ py_round q.
Proof.
  intros Hq. apply Qfloor_resp_le in Hq. rewrite Qfloor_Z in Hq.
  pose proof (py_round_floor q). lia.
Qed.

Lemma py_round_0 : py_round 0 = 0.
Proof. reflexivity. Qed.

(** With the cutoff applied, the rounded ratio reaches the cutoff exactly
    when the ratio itself does, or the cutoff is not positive. *)
Lemma cutoff_reached (q : Q) (c : Z) :
  c ≤ py_round (with_cutoff q c) ↔ (inject_Z c <= q)%Q ∨ c ≤ 0.
Proof.
  unfold with_cutoff. destruct (q ?= inject_Z c)%Q eqn:Hcmp.
  - apply Qeq_alt in Hcmp. split; [left|intros _; apply py_round_ge];
      rewrite Hcmp; apply Qle_refl.
  - apply Qlt_alt in Hcmp. rewrite py_round_0. split; [by right|].
    intros [Hle|?]; [|done]. exfalso. by eapply Qlt_not_le.
  - apply Qgt_alt in Hcmp. split; [left|intros _; apply py_round_ge];
      by apply Qlt_le_weak.
Qed.

Lemma cutoff_antitone (q : Q) (c c' : Z) :
  c' ≤ c → c ≤ py_round (with_cutoff q c) → c' ≤ py_round (with_cutoff q c').
Proof.
  intros Hcc. rewrite !cutoff_reached. intros [Hq|Hc]; [left|right; lia].
  eapply Qle_trans; [|exact Hq]. by rewrite <-Zle_Qle.
Qed.

Section Threshold.
Context `{External}.

Lemma fuzzy_compare_Ok (s1 s2 : string) (cb : bool) (cutoff f : atom) (ratio : Z) :
  fuzzy_compare s1 s2 cb cutoff f = Ok ratio ↔
  ∃ g c, registry_get f = Ok g ∧ as_int cutoff = Ok c ∧
    ratio = py_round (with_cutoff
                        (g (if cb then str_lower s1 else s1)
                           (if cb then str_lower s2 else s2)) c).
Proof.
  unfold fuzzy_compare.
  destruct (registry_get f) as [g|]; simpl; [|by split; [|intros (? & ? & ? & _)]].
  destruct (as_int cutoff) as [c|]; simpl; [|by split; [|intros (? & ? & _ & ? & _)]].
  split; [intros [= <-]; eauto|]. by intros (? & ? & [= <-] & [= <-] & ->).
Qed.

Lemma fuzzy_compare_antitone (s1 s2 : string) (cb : bool) (f : atom)
    (c c' ratio : Z) :
  c' ≤ c →
  fuzzy_compare s1 s2 cb (AInt c) f = Ok ratio → c ≤ ratio →
  ∃ ratio', fuzzy_compare s1 s2 cb (AInt c') f = Ok ratio' ∧ c' ≤ ratio'.
Proof.
  intros Hcc (g & c0 & Hg & [= <-] & ->)%fuzzy_compare_Ok Hle.
  eexists. split.
  - apply fuzzy_compare_Ok. by exists g, c'.
  - by eapply cutoff_antitone.
Qed.

(** In terms of the similarity before the cutoff and the rounding: the
    ratio [fuzzy_compare] returns reaches the cutoff exactly when the
    similarity does, or the cutoff is not positive. *)
Lemma fuzzy_compare_reaches (s1 s2 : string) (cb : bool) (f : atom)
    (g : string → string → Q) (c : Z) :
  registry_get f = Ok g →
  (∃ ratio, fuzzy_compare s1 s2 cb (AInt c) f = Ok ratio ∧ c ≤ ratio) ↔
  (inject_Z c <= g (if cb then str_lower s1 else s1)
                   (if cb then str_lower s2 else s2))%Q ∨ c ≤ 0.
Proof.
  intros Hg. rewrite <-cutoff_reached. split.
  - intros (ratio & (g' & c' & Hg' & [= <-] & ->)%fuzzy_compare_Ok & Hle).
    rewrite Hg in Hg'. by injection Hg' as <-.
  - intros Hle. eexists. split; [|exact Hle].
    apply fuzzy_compare_Ok. by exists g, c.
Qed.

(** Whether [fuzzy_compare] raises does not depend on the strings. *)
Lemma fuzzy_compare_returns (s1 s2 s1' s2' : string) (cb cb' : bool)
    (cutoff f : atom) (ratio : Z) :
  fuzzy_compare s1 s2 cb cutoff f = Ok ratio →
  ∃ ratio', fuzzy_compare s1' s2' cb' cutoff f = Ok ratio'.
Proof.
  intros (g & c & Hg & Hc & _)%fuzzy_compare_Ok.
  eexists. apply fuzzy_compare_Ok. by exists g, c.
Qed.

(** A window that is rejected gives the empty list; one that is accepted
    gives the slot results gathered so far and one more for each token. *)
Lemma iter_from_length (seq : list Token) (min_r : Z) (ff : string) (i : nat)
    (tokens : Pattern) (acc cand : candidate) :
  iter_from seq min_r ff i tokens acc = Ok cand →
  cand = [] ∨ length cand = (length acc + length tokens)%nat.
Proof.
  revert i acc. induction tokens as [|token rest IH]; intros i acc; simpl.
  { intros [= <-]. right. lia. }
  destruct (slot_result seq min_r ff i token) as [[s|]|]; simpl; [| |done].
  - intros [->|Hlen]%IH; [by left|right].
    rewrite Hlen, length_app. simpl. lia.
  - intros [= <-]. by left.
Qed.

Lemma seq_item_lt (seq : list Token) (i : nat) :
  (i < length seq)%nat → ∃ tok, seq_item seq i = Ok tok.
Proof.
  intros [tok Htok]%lookup_lt_is_Some. exists tok.
  unfold seq_item. by rewrite Htok.
Qed.

(** Lowering the default cutoff keeps a slot that was accepted. *)
Lemma slot_result_antitone (seq : list Token) (c c' : Z) (ff : string)
    (i : nat) (token : TokenSpec) (s : slot) :
  c' ≤ c →
  slot_result seq c ff i token = Ok (Some s) →
  slot_result seq c' ff i token = Ok (Some s).
Proof.
  intros Hcc. unfold slot_result.
  destruct (_parse_case token) as [[[a|d] case] cb]; [done|].
  destruct (_parse_type d) as [pt ty].
  destruct (str_truthy pt && bool_decide (ty = "FUZZY"%string)); [|done].
  unfold dict_get_or.
  destruct (d !! "MIN_R"%string) as [a|]; simpl; [done|].
  destruct (seq_item seq i) as [tok|]; simpl; [|done].
  destruct (fuzzy_compare _ _ _ (AInt c) _) as [ratio|] eqn:Hf; simpl; [|done].
  destruct (c <=? ratio) eqn:Hle; [|done]. intros [= <-].
  apply Z.leb_le in Hle.
  destruct (fuzzy_compare_antitone _ _ _ _ _ _ _ Hcc Hf Hle) as (ratio' & -> & Hle').
  simpl. apply Z.leb_le in Hle'. by rewrite Hle'.
Qed.

(** Whether a slot raises depends neither on the window, once it is long
    enough, nor on the default cutoff. *)
Lemma slot_result_returns (seq0 seq : list Token) (c c' : Z) (ff : string)
    (i0 i : nat) (token : TokenSpec) (r0 : option slot) :
  slot_result seq0 c ff i0 token = Ok r0 →
  (i < length seq)%nat →
  ∃ r, slot_result seq c' ff i token = Ok r.
Proof.
  intros Hr0 [tok Htok]%seq_item_lt. revert Hr0. unfold slot_result.
  destruct (_parse_case token) as [[[a|d] case] cb]; [eauto|].
  destruct (_parse_type d) as [pt ty].
  destruct (str_truthy pt && bool_decide (ty = "FUZZY"%string)).
  - rewrite Htok. simpl.
    destruct (seq_item seq0 i0) as [tok0|]; simpl; [|done].
    destruct (fuzzy_compare (text tok0) _ _ _ _) as [ratio0|] eqn:Hf0;
      simpl; [|done].
    apply fuzzy_compare_Ok in Hf0 as (g & c0 & Hg & Hc0 & _).
    assert (∃ b, as_int (dict_get_or d "MIN_R" (AInt c')) = Ok b) as [b Hb].
    { revert Hc0. unfold dict_get_or.
      destruct (d !! "MIN_R"%string); simpl; eauto. }
    intros _.
    destruct (fuzzy_compare (text tok) pt cb (dict_get_or d "MIN_R" (AInt c'))
                (dict_get_or d "FUZZY_FUNC" (AStr ff))) as [ratio|] eqn:Hf.
    + simpl. rewrite Hb. simpl. destruct (b <=? ratio); eauto.
    + exfalso.
      assert (is_ok (fuzzy_compare (text tok) pt cb
                       (dict_get_or d "MIN_R" (AInt c'))
                       (dict_get_or d "FUZZY_FUNC" (AStr ff))) = true) as Hok.
      { unfold fuzzy_compare. rewrite Hg, Hb. done. }
      by rewrite Hf in Hok.
  - intros _.
    destruct (str_truthy pt && bool_decide (ty = "FREGEX"%string)); [|eauto].
    rewrite Htok. simpl. destruct (regex_compare _ _ _); eauto.
Qed.

Lemma iter_from_antitone (seq : list Token) (c c' : Z) (ff : string) (i : nat)
    (tokens : Pattern) (acc cand : candidate) :
  c' ≤ c →
  iter_from seq c ff i tokens acc = Ok cand → cand ≠ [] →
  iter_from seq c' ff i tokens acc = Ok cand.
Proof.
  intros Hcc. revert i acc.
  induction tokens as [|token rest IH]; intros i acc; simpl; [done|].
  destruct (slot_result seq c ff i token) as [[s|]|] eqn:Hs; simpl.
  - rewrite (slot_result_antitone _ _ _ _ _ _ _ Hcc Hs). simpl. apply IH.
  - by intros [= <-].
  - done.
Qed.

Lemma iter_from_returns (seq0 seq : list Token) (c c' : Z) (ff : string)
    (i0 i : nat) (tokens : Pattern) (acc0 acc cand0 : candidate) :
  iter_from seq0 c ff i0 tokens acc0 = Ok cand0 → cand0 ≠ [] →
  (i + length tokens ≤ length seq)%nat →
  ∃ cand, iter_from seq c' ff i tokens acc = Ok cand.
Proof.
  revert i0 i acc0 acc.
  induction tokens as [|token rest IH]; intros i0 i acc0 acc; simpl; [eauto|].
  destruct (slot_result seq0 c ff i0 token) as [[s0|]|] eqn:Hs0; simpl.
  - intros Hrest Hne Hlen.
    destruct (slot_result_returns seq0 seq c c' ff i0 i token _ Hs0) as [r Hr];
      [lia|].
    rewrite Hr. simpl. destruct r as [s|]; [|eauto].
    eapply IH; [done..|lia].
  - by intros [= <-].
  - done.
Qed.

Lemma n_wise_length (doc : Doc) (n : nat) (seq : list Token) :
  seq ∈ n_wise doc n → length seq = n.
Proof.
  induction doc as [|tok doc IH]; simpl; [by intros ?%elem_of_nil|].
  case_bool_decide as Hn; [|by intros ?%elem_of_nil].
  intros [->|Hin]%elem_of_cons; [|by apply IH].
  rewrite length_take. simpl. lia.
Qed.

Lemma fmap_all_Ok {A B} (f : A → res B) (l : list A) :
  (∀ x, x ∈ l → ∃ y, f x = Ok y) → ∃ k, f <$> l = Ok <$> k.
Proof.
  induction l as [|x l IH]; intros Hall; [by exists []|].
  destruct (Hall x) as [y Hy]; [by left|].
  destruct IH as [k Hk]; [intros z Hz; apply Hall; by right|].
  exists (y :: k). by rewrite !fmap_cons, Hy, Hk.
Qed.

End Threshold.

Section ThresholdTheorem.
Context `{External}.

Lemma str_truthy_true (s : string) : s ≠ ""%string → str_truthy s = true.
Proof. by destruct s. Qed.

(** What a [FUZZY] slot does with the window token [tok]: it is accepted
    when the ratio computed by [fuzzy_compare] reaches the effective cutoff
    [eff], and the window is rejected when it does not. *)
Lemma fuzzy_slot_result (seq : list Token) (min_r : Z) (ff : string) (i : nat)
    (token : TokenSpec) (d : gmap string atom) (case target : string)
    (cb : bool) (tok : Token) (eff : Z) :
  _parse_case token = (VDict d, case, cb) →
  _parse_type d = (target, "FUZZY"%string) → target ≠ ""%string →
  seq !! i = Some tok →
  as_int (dict_get_or d "MIN_R" (AInt min_r)) = Ok eff →
  slot_result seq min_r ff i token =
    (ratio ← fuzzy_compare (text tok) target cb
               (dict_get_or d "MIN_R" (AInt min_r))
               (dict_get_or d "FUZZY_FUNC" (AStr ff));
     if eff <=? ratio then Ok (Some (Some (case, text tok))) else Ok None).
Proof.
  intros Hcase Htype Htarget Htok Heff. unfold slot_result, seq_item.
  rewrite Hcase, Htype, (str_truthy_true _ Htarget), Htok. simpl.
  destruct (fuzzy_compare _ _ _ _ _); simpl; [|done]. by rewrite Heff.
Qed.

(** C5, as the code has it. A [FUZZY] slot with a target that is not the
    empty string, whose effective cutoff is [eff] (the slot's [MIN_R] when
    it has one, the caller's [min_r] otherwise), accepts the window token
    exactly when the ratio computed for it is at least [eff]; a ratio that
    reaches a cutoff reaches every lower one; with a lower default cutoff,
    [match] still returns every candidate it returned before; and a [FUZZY]
    slot whose target is the empty string is not evaluated: it is recorded
    as [None] whatever the token. *)
Theorem fuzzy_threshold (doc : Doc) (pattern : Pattern) (ff : string) (c c' : Z) :
  c' ≤ c →
  (∀ seq i token d case cb target tok eff,
     _parse_case token = (VDict d, case, cb) →
     _parse_type d = (target, "FUZZY"%string) → target ≠ ""%string →
     seq !! i = Some tok →
     as_int (dict_get_or d "MIN_R" (AInt c)) = Ok eff →
     slot_result seq c ff i token = Ok (Some (Some (case, text tok))) ↔
     ∃ ratio,
       fuzzy_compare (text tok) target cb (dict_get_or d "MIN_R" (AInt c))
         (dict_get_or d "FUZZY_FUNC" (AStr ff)) = Ok ratio ∧
       eff ≤ ratio) ∧
  (∀ s1 s2 cb f ratio,
     fuzzy_compare s1 s2 cb (AInt c) f = Ok ratio → c ≤ ratio →
     ∃ ratio', fuzzy_compare s1 s2 cb (AInt c') f = Ok ratio' ∧ c' ≤ ratio') ∧
  (∀ cands cand,
     match_ doc pattern c ff = Ok cands → cand ∈ cands →
     ∃ cands', match_ doc pattern c' ff = Ok cands' ∧ cand ∈ cands') ∧
  (∀ seq i token d case cb,
     _parse_case token = (VDict d, case, cb) →
     _parse_type d = (""%string, "FUZZY"%string) →
     slot_result seq c ff i token = Ok (Some None)).
Proof.
  intros Hcc. split_and!; cycle 3.
  { intros seq i token d case cb Hcase Htype. unfold slot_result.
    by rewrite Hcase, Htype. }
  - intros seq i token d case cb target tok eff Hcase Htype Htarget Htok Heff.
    rewrite (fuzzy_slot_result _ _ _ _ _ _ _ _ _ _ _ Hcase Htype Htarget Htok Heff).
    destruct (fuzzy_compare _ _ _ _ _) as [ratio|e]; simpl.
    + destruct (eff <=? ratio) eqn:Hle.
      * apply Z.leb_le in Hle. split; [eauto|done].
      * apply Z.leb_gt in Hle. split; [done|].
        intros (ratio' & [= <-] & ?). lia.
    + split; [done|]. by intros (? & ? & _).
  - intros s1 s2 cb f ratio. by apply fuzzy_compare_antitone.
  - intros cands cand (Hne & results & Hres & ->)%match_Ok Hcand.
    rewrite elem_of_first_seen, list_elem_of_filter in Hcand.
    destruct Hcand as [Hcne Hcand].
    assert (∃ seq0, seq0 ∈ n_wise doc (length pattern) ∧
                    _iter_pattern seq0 pattern c ff = Ok cand)
      as (seq0 & Hseq0 & Hc0).
    { assert (Ok cand ∈ (λ seq, _iter_pattern seq pattern c ff) <$>
                n_wise doc (length pattern)) as Hin.
      { rewrite Hres. by apply list_elem_of_fmap_2. }
      apply list_elem_of_fmap in Hin as (seq0 & ? & ?). eauto. }
    destruct (fmap_all_Ok (λ seq, _iter_pattern seq pattern c' ff)
                (n_wise doc (length pattern))) as [results' Hres'].
    { intros seq Hseq. apply n_wise_length in Hseq.
      eapply iter_from_returns; [exact Hc0|done|]. simpl. lia. }
    exists (first_seen (filter (λ c, c ≠ []) results')). split.
    + apply match_Ok. eauto.
    + rewrite elem_of_first_seen, list_elem_of_filter. split; [done|].
      apply (list_elem_of_fmap_inj_2 Ok). rewrite <-Hres'.
      apply list_elem_of_fmap. exists seq0. split; [|done].
      symmetry. by apply iter_from_antitone with c.
Qed.

End ThresholdTheorem.

(** ** The governing attribute and the type of a slot *)

Section Parsing.
Context `{External}.

Lemma parse_case_truthy (token : TokenSpec) :
  truthy (spec_get token "TEXT") = true →
  _parse_case token = (spec_get token "TEXT", "TEXT"%string, false).
Proof. unfold _parse_case. by intros ->. Qed.

Lemma parse_case_falsy (token : TokenSpec) :
  truthy (spec_get token "TEXT") = false →
  _parse_case token = (spec_get token "LOWER", "LOWER"%string, true).
Proof. unfold _parse_case. by intros ->. Qed.

(** The constraint object that governs a token-spec sits under the key
    that [_parse_case] names. *)
Lemma parse_case_dict (token : TokenSpec) (d : gmap string atom)
    (case : string) (cb : bool) :
  _parse_case token = (VDict d, case, cb) →
  token !! case = Some (VDict d) ∧
  ((case = "TEXT"%string ∧ cb = false ∧ d ≠ ∅) ∨
   (case = "LOWER"%string ∧ cb = true ∧ truthy (spec_get token "TEXT") = false)).
Proof.
  unfold _parse_case, spec_get.
  destruct (truthy (default (VAtom ANone) (token !! "TEXT"%string))) eqn:Ht.
  - intros [= Hd <- <-].
    destruct (token !! "TEXT"%string) as [v|] eqn:Hv; simpl in *; [|done].
    subst v. split; [done|]. left. split_and!; [done..|].
    intros ->. simpl in Ht. by rewrite bool_decide_eq_true_2 in Ht.
  - intros [= Hd <- <-].
    destruct (token !! "LOWER"%string) as [v|] eqn:Hv; simpl in *; [|done].
    subst v. split; [done|]. by right.
Qed.

Lemma parse_type_fuzzy (d : gmap string atom) (s : string) :
  dict_get d "FUZZY" = AStr s → _parse_type d = (s, "FUZZY"%string).
Proof. unfold _parse_type. by intros ->. Qed.

Lemma parse_type_neither (d : gmap string atom) :
  (∀ s, dict_get d "FUZZY" ≠ AStr s) → (∀ s, dict_get d "FREGEX" ≠ AStr s) →
  _parse_type d = (""%string, ""%string).
Proof.
  unfold _parse_type. intros Hf Hr.
  destruct (dict_get d "FUZZY") as [| | |s]; [..|by destruct (Hf s)];
    (destruct (dict_get d "FREGEX") as [| | |s]; [..|by destruct (Hr s)]); done.
Qed.

(** C10. In the constraint object [d] that governs a token-spec, a [FUZZY]
    key with a string value decides the slot whatever is under [FREGEX];
    and when neither [FUZZY] nor [FREGEX] holds a string, the slot is
    recorded as [None] without any comparison and without an exception. *)
Theorem parse_type_precedence (seq : list Token) (min_r : Z) (ff : string)
    (i : nat) (token : TokenSpec) (d : gmap string atom) (case : string)
    (cb : bool) :
  _parse_case token = (VDict d, case, cb) →
  (∀ s, dict_get d "FUZZY" = AStr s →
     _parse_type d = (s, "FUZZY"%string) ∧
     ∀ r, _parse_type (<["FREGEX"%string := r]> d) = (s, "FUZZY"%string) ∧
          slot_result seq min_r ff i
            (<[case := VDict (<["FREGEX"%string := r]> d)]> token)
          = slot_result seq min_r ff i token) ∧
  ((∀ s, dict_get d "FUZZY" ≠ AStr s) → (∀ s, dict_get d "FREGEX" ≠ AStr s) →
     _parse_type d = (""%string, ""%string) ∧
     slot_result seq min_r ff i token = Ok (Some None)).
Proof.
  intros Hcase. split.
  - intros s Hs. split; [by apply parse_type_fuzzy|]. intros r.
    assert (_parse_type (<["FREGEX"%string := r]> d) = (s, "FUZZY"%string))
      as Htype'.
    { apply parse_type_fuzzy. unfold dict_get in *.
      by rewrite lookup_insert_ne. }
    split; [done|].
    assert (_parse_case (<[case := VDict (<["FREGEX"%string := r]> d)]> token)
            = (VDict (<["FREGEX"%string := r]> d), case, cb)) as Hcase'.
    { destruct (parse_case_dict _ _ _ _ Hcase) as [_ [(-> & -> & _)|(-> & -> & Ht)]].
      - rewrite parse_case_truthy; unfold spec_get; rewrite lookup_insert_eq;
          simpl; [done|].
        rewrite bool_decide_eq_false_2; [done|]. apply insert_non_empty.
      - rewrite parse_case_falsy; unfold spec_get in *.
        + by rewrite lookup_insert_eq.
        + by rewrite lookup_insert_ne. }
    unfold slot_result.
    rewrite Hcase, Hcase', Htype', (parse_type_fuzzy _ _ Hs).
    unfold dict_get_or. by rewrite !lookup_insert_ne.
  - intros Hf Hr. pose proof (parse_type_neither _ Hf Hr) as Htype.
    split; [done|]. unfold slot_result. by rewrite Hcase, Htype.
Qed.

(** C6, as the code has it. A [TEXT] value that is truthy governs the slot
    and the strings are compared as they are; otherwise, also when a [TEXT]
    key is there with an empty value, [LOWER] governs and the token text is
    lower-cased first: together with the target for [FUZZY], alone for
    [FREGEX], whose pattern is used as written. A constraint object under
    [TEXT] alone is never case-folded, the same under [LOWER] alone always
    is. *)
Theorem parse_case_governs (token : TokenSpec) :
  (truthy (spec_get token "TEXT") = true →
   _parse_case token = (spec_get token "TEXT", "TEXT"%string, false)) ∧
  (truthy (spec_get token "TEXT") = false →
   _parse_case token = (spec_get token "LOWER", "LOWER"%string, true)) ∧
  (∀ d, d ≠ ∅ →
     _parse_case {[ "TEXT"%string := VDict d ]} = (VDict d, "TEXT"%string, false)) ∧
  (∀ d, _parse_case {[ "LOWER"%string := VDict d ]}
        = (VDict d, "LOWER"%string, true)) ∧
  (∀ s1 s2 cutoff f g c,
     registry_get f = Ok g → as_int cutoff = Ok c →
     fuzzy_compare s1 s2 false cutoff f = Ok (py_round (with_cutoff (g s1 s2) c))) ∧
  (∀ s1 s2 cutoff f,
     fuzzy_compare s1 s2 true cutoff f
     = fuzzy_compare (str_lower s1) (str_lower s2) false cutoff f) ∧
  (∀ s1 s1' s2 s2' cutoff f,
     str_lower s1 = str_lower s1' → str_lower s2 = str_lower s2' →
     fuzzy_compare s1 s2 true cutoff f = fuzzy_compare s1' s2' true cutoff f) ∧
  (∀ txt pat, regex_compare txt pat false = regex_match pat txt) ∧
  (∀ txt pat, regex_compare txt pat true = regex_match pat (str_lower txt)) ∧
  (∀ seq c ff i d target tok eff,
     _parse_type d = (target, "FUZZY"%string) → target ≠ ""%string →
     seq !! i = Some tok →
     as_int (dict_get_or d "MIN_R" (AInt c)) = Ok eff →
     slot_result seq c ff i {[ "TEXT"%string := VDict d ]} =
       (ratio ← fuzzy_compare (text tok) target false
                  (dict_get_or d "MIN_R" (AInt c))
                  (dict_get_or d "FUZZY_FUNC" (AStr ff));
        if eff <=? ratio then Ok (Some (Some ("TEXT"%string, text tok)))
        else Ok None) ∧
     slot_result seq c ff i {[ "LOWER"%string := VDict d ]} =
       (ratio ← fuzzy_compare (str_lower (text tok)) (str_lower target) false
                  (dict_get_or d "MIN_R" (AInt c))
                  (dict_get_or d "FUZZY_FUNC" (AStr ff));
        if eff <=? ratio then Ok (Some (Some ("LOWER"%string, text tok)))
        else Ok None)).
Proof.
  assert (∀ d, d ≠ ∅ →
            _parse_case {[ "TEXT"%string := VDict d ]}
            = (VDict d, "TEXT"%string, false)) as Htext.
  { intros d Hd. rewrite parse_case_truthy; unfold spec_get;
      rewrite lookup_singleton_eq; simpl; [done|].
    by rewrite bool_decide_eq_false_2. }
  assert (∀ d, _parse_case {[ "LOWER"%string := VDict d ]}
               = (VDict d, "LOWER"%string, true)) as Hlower.
  { intros d. rewrite parse_case_falsy; unfold spec_get.
    + by rewrite lookup_singleton_eq.
    + by rewrite lookup_singleton_ne. }
  split_and!; cycle 9.
  { intros seq c ff i d target tok eff Htype Htarget Htok Heff.
    assert (d ≠ ∅) as Hd.
    { intros ->. unfold _parse_type, dict_get in Htype.
      rewrite !lookup_empty in Htype. simpl in Htype. by simplify_eq. }
    split.
    - by rewrite (fuzzy_slot_result _ _ _ _ _ _ _ _ _ _ _
                    (Htext d Hd) Htype Htarget Htok Heff).
    - by rewrite (fuzzy_slot_result _ _ _ _ _ _ _ _ _ _ _
                    (Hlower d) Htype Htarget Htok Heff). }
  - apply parse_case_truthy.
  - apply parse_case_falsy.
  - exact Htext.
  - exact Hlower.
  - intros s1 s2 cutoff f g c Hg Hc. apply fuzzy_compare_Ok. by exists g, c.
  - done.
  - intros s1 s1' s2 s2' cutoff f Hs1 Hs2. unfold fuzzy_compare.
    by rewrite Hs1, Hs2.
  - intros txt pat. unfold regex_compare. by destruct (regex_match _ _).
  - intros txt pat. unfold regex_compare. by destruct (regex_match _ _).
Qed.

End Parsing.

(** ** Registering and removing rules *)

Lemma with_patterns_cons (label : string) (p : Pattern) (accepted : list Pattern)
    (table : gmap string (list Pattern)) :
  with_patterns label accepted
    (<[label := default [] (table !! label) ++ [p]]> table)
  = with_patterns label (p :: accepted) table.
Proof.
  destruct accepted as [|q accepted]; simpl; [done|].
  rewrite lookup_insert_eq, insert_insert_eq. simpl. by rewrite <-app_assoc.
Qed.

(** What the loop of [add] has done when it stops: the patterns before the
    first one that is not valid are appended, nothing else has changed; it
    raises exactly when there is a pattern that is not valid. *)
Lemma add_patterns_spec (label : string) (patterns : list pattern_arg)
    (m m' : state) (r : res unit) :
  add_patterns label patterns m = (r, m') →
  defaults m' = defaults m ∧ _callbacks m' = _callbacks m ∧
  ∃ accepted,
    Forall (λ p, p ≠ []) accepted ∧
    _patterns m' = with_patterns label accepted (_patterns m) ∧
    match r with
    | Ok _ => patterns = PList <$> accepted
    | Raise e =>
        ∃ bad rest,
          patterns = (PList <$> accepted) ++ bad :: rest ∧
          ((len bad = 0%nat ∧ e = ValueError) ∨
           (∃ d, bad = PDict d ∧ d ≠ ∅ ∧ e = TypeError))
    end.
Proof.
  revert m. induction patterns as [|p patterns IH]; intros m; simpl.
  { intros [= <- <-]. split_and!; [done..|]. by exists []. }
  case_bool_decide as Hlen.
  { intros [= <- <-]. split_and!; [done..|]. exists []. split_and!; [done..|].
    exists p, patterns. split; [done|]. by left. }
  destruct p as [l|d].
  - intros (Hd & Hc & accepted & Hvalid & Hpat & Hr)%IH.
    split_and!; [done..|]. exists (l :: accepted). split_and!.
    + constructor; [|done]. by intros ->.
    + rewrite Hpat. simpl. apply with_patterns_cons.
    + destruct r as [|e]; [by rewrite Hr|].
      destruct Hr as (bad & rest & -> & Hbad). by exists bad, rest.
  - intros [= <- <-]. split_and!; [done..|]. exists []. split_and!; [done..|].
    exists (PDict d), patterns. split; [done|]. right. exists d.
    split_and!; [done| |done]. intros ->. by apply Hlen.
Qed.

Lemma add_patterns_valid (label : string) (ps : list Pattern) (m : state) :
  Forall (λ p, p ≠ []) ps →
  add_patterns label (PList <$> ps) m =
    (Ok (), {| defaults := defaults m;
               _callbacks := _callbacks m;
               _patterns := with_patterns label ps (_patterns m) |}).
Proof.
  revert m. induction ps as [|p ps IH]; intros m Hvalid; simpl.
  { by destruct m. }
  apply Forall_cons in Hvalid as [Hp Hvalid].
  rewrite bool_decide_eq_false_2 by (by destruct p).
  rewrite IH by done. simpl. by rewrite with_patterns_cons.
Qed.

(** C3, as the code has it. [add] either returns, and then every pattern
    of the call is appended to the label's list and the callback is set; or
    it raises at the first pattern that is not valid, and then the callbacks
    are as before but the patterns of the call that come before that one
    have been appended all the same: the rule set is as before only when the
    first pattern of the call is the invalid one. The default settings and
    the patterns of the other labels are as before in both cases. *)
Theorem add_raises_keeps_accepted (label : string) (patterns : list pattern_arg)
    (on_match : TokenCallback) (m : state) :
  let '(r, m') := add label patterns on_match m in
  ∃ accepted,
    Forall (λ p, p ≠ []) accepted ∧
    defaults m' = defaults m ∧
    _patterns m' = with_patterns label accepted (_patterns m) ∧
    (∀ other, other ≠ label → _patterns m' !! other = _patterns m !! other) ∧
    match r with
    | Ok _ =>
        patterns = PList <$> accepted ∧
        _callbacks m' = <[label := on_match]> (_callbacks m)
    | Raise e =>
        ∃ bad rest,
          patterns = (PList <$> accepted) ++ bad :: rest ∧
          ¬ valid_pattern bad ∧
          _callbacks m' = _callbacks m ∧
          (accepted = [] → m' = m)
    end.
Proof.
  unfold add.
  destruct (add_patterns label patterns m) as [r m''] eqn:Hadd.
  apply add_patterns_spec in Hadd
    as (Hd & Hc & accepted & Hvalid & Hpat & Hr).
  assert (∀ other, other ≠ label →
            _patterns m'' !! other = _patterns m !! other) as Hother.
  { intros other Hne. rewrite Hpat. destruct accepted; simpl; [done|].
    by rewrite lookup_insert_ne. }
  destruct r as [u|e].
  - exists accepted. simpl. split_and!; try done. by rewrite Hc.
  - destruct Hr as (bad & rest & -> & Hbad).
    exists accepted. split_and!; try done.
    exists bad, rest. split_and!; try done.
    + intros (l & -> & Hl). destruct Hbad as [[Hlen _]|(d & [=] & _)].
      by destruct l.
    + intros ->. simpl in Hpat. destruct m, m''. simpl in *. by subst.
Qed.

(** C8. On a label that is registered, [add] with valid patterns appends
    them, in order, to the label's list and sets the label's callback to the
    one given; the labels are the same as before. *)
Theorem add_existing_label (label : string) (ps : list Pattern)
    (on_match : TokenCallback) (m : state) (old : list Pattern) :
  _patterns m !! label = Some old →
  Forall (λ p, p ≠ []) ps →
  let m' := {| defaults := defaults m;
               _callbacks := <[label := on_match]> (_callbacks m);
               _patterns := <[label := old ++ ps]> (_patterns m) |} in
  add label (PList <$> ps) on_match m = (Ok (), m') ∧
  _patterns m' !! label = Some (old ++ ps) ∧
  _callbacks m' !! label = Some on_match ∧
  (∀ other, other ≠ label →
     _patterns m' !! other = _patterns m !! other ∧
     _callbacks m' !! other = _callbacks m !! other) ∧
  dom (_patterns m') = dom (_patterns m) ∧
  __len__ m' = __len__ m ∧
  NoDup (labels m').
Proof.
  intros Hold Hvalid m'. split_and!.
  - unfold add. rewrite add_patterns_valid by done. simpl.
    unfold m'. do 2 f_equal. destruct ps as [|p ps]; simpl.
    + rewrite app_nil_r. by rewrite insert_id.
    + by rewrite Hold.
  - apply lookup_insert_eq.
  - apply lookup_insert_eq.
  - intros other Hother. simpl. by rewrite !lookup_insert_ne.
  - simpl. apply dom_insert_lookup_L. eauto.
  - unfold __len__. simpl. apply map_size_insert_Some. eauto.
  - apply NoDup_fst_map_to_list.
Qed.

(** C9, as the code has it. [add] with an empty list of patterns returns;
    the rule table is as before, and the callback is recorded all the same.
    For a label without patterns this means that the label is not among
    [labels], not contained and not counted, and that [remove] of that
    label raises [ValueError] and leaves the callback where it is. For a
    label with patterns the label stays contained, and [remove] returns
    and deletes the patterns and the callback. *)
Theorem add_empty_orphan_callback (label : string) (on_match : TokenCallback)
    (m : state) :
  let m' := {| defaults := defaults m;
               _callbacks := <[label := on_match]> (_callbacks m);
               _patterns := _patterns m |} in
  add label [] on_match m = (Ok (), m') ∧
  _patterns m' = _patterns m ∧
  __len__ m' = __len__ m ∧
  _callbacks m' !! label = Some on_match ∧
  (_patterns m !! label = None →
   (label ∉ labels m') ∧
   __contains__ m' label = false ∧
   remove label m' = (Raise ValueError, m') ∧
   _callbacks (remove label m').2 !! label = Some on_match) ∧
  (is_Some (_patterns m !! label) →
   __contains__ m' label = true ∧
   remove label m' =
     (Ok (), {| defaults := defaults m;
                _callbacks := delete label (_callbacks m);
                _patterns := delete label (_patterns m) |})).
Proof.
  intros m'. split_and!; [done..|apply lookup_insert_eq| |].
  - intros Hnone. split_and!.
    + unfold labels. simpl. intros Hin.
      apply list_elem_of_fmap in Hin as ([l ps] & -> & Hin).
      apply elem_of_map_to_list in Hin. simpl in Hnone. congruence.
    + unfold __contains__. simpl. rewrite Hnone.
      apply bool_decide_eq_false_2. by intros [? ?].
    + unfold remove. simpl. by rewrite Hnone.
    + unfold remove. simpl. rewrite Hnone. apply lookup_insert_eq.
  - intros [ps Hps]. split.
    + unfold __contains__. simpl. rewrite Hps. by apply bool_decide_eq_true_2.
    + unfold remove. simpl. rewrite Hps, lookup_insert_eq.
      by rewrite delete_insert_eq.
Qed.

(** ** Concretization *)

Section Concretization.
Context `{External}.


(** The slot results of an accepted window, position by position. *)
Lemma iter_from_slots (seq : list Token) (c : Z) (ff : string) (i : nat)
    (tokens : Pattern) (acc cand : candidate) :
  iter_from seq c ff i tokens acc = Ok cand → cand ≠ [] →
  ∃ slots,
    cand = acc ++ slots ∧ length slots = length tokens ∧
    ∀ k token s, tokens !! k = Some token → slots !! k = Some s →
      slot_result seq c ff (i + k) token = Ok (Some s).
Proof.
  revert i acc. induction tokens as [|token rest IH]; intros i acc; simpl.
  { intros [= <-] _. exists []. by rewrite app_nil_r. }
  destruct (slot_result seq c ff i token) as [[s0|]|] eqn:Hs0; simpl.
  - intros Hrest Hne.
    destruct (IH _ _ Hrest Hne) as (slots & -> & Hlen & Hslots).
    exists (s0 :: slots). split_and!.
    + by rewrite <-app_assoc.
    + simpl. by rewrite Hlen.
    + intros [|k] token' s; simpl.
      * intros [= <-] [= <-]. by rewrite Nat.add_0_r.
      * intros Htok Hs. rewrite Nat.add_succ_r. by eapply Hslots.
  - by intros [= <-].
  - done.
Qed.


End Concretization.

Section ConcretizationTheorem.
Context `{External}.

(** The candidates of [match] have one slot result for each token-spec of
    the pattern, each computed by [slot_result] on one window. *)
Lemma match_candidate_slots (doc : Doc) (pattern : Pattern) (min_r : Z)
    (ff : string) (cands : list candidate) (cand : candidate) :
  match_ doc pattern min_r ff = Ok cands → cand ∈ cands →
  cand ≠ [] ∧ length cand = length pattern ∧
  ∃ seq, seq ∈ n_wise doc (length pattern) ∧
    ∀ k token s, pattern !! k = Some token → cand !! k = Some s →
      slot_result seq min_r ff k token = Ok (Some s).
Proof.
  intros Hmatch Hcand.
  apply (elem_of_match _ _ _ _ _ _ Hmatch) in Hcand
    as (Hne & seq & Hseq & Hiter).
  destruct (iter_from_slots _ _ _ _ _ _ _ Hiter Hne) as (slots & -> & Hlen & Hslots).
  rewrite app_nil_l. split_and!; [done..|]. exists seq. split; [done|].
  intros k token s. apply Hslots.
Qed.


End ConcretizationTheorem.

(** ** The order of the matches *)

Lemma key_leb_comes_before (a b : match_record) :
  key_leb (sort_key b) (sort_key a) = true ↔ comes_before a b.
Proof.
  unfold key_leb, sort_key, comes_before.
  rewrite !orb_true_iff, !andb_true_iff, !orb_true_iff, !andb_true_iff.
  rewrite !Z.ltb_lt, !Z.eqb_eq, Z.leb_le. lia.
Qed.

Lemma key_leb_total (x y : Z * Z * Z) : key_leb x y = false → key_leb y x = true.
Proof.
  destruct x as [[x1 x2] x3], y as [[y1 y2] y3]. unfold key_leb.
  rewrite !orb_false_iff, !andb_false_iff, !orb_false_iff, !andb_false_iff.
  rewrite !orb_true_iff, !andb_true_iff, !orb_true_iff, !andb_true_iff.
  rewrite !Z.ltb_lt, !Z.ltb_ge, !Z.eqb_eq, !Z.eqb_neq, Z.leb_le, Z.leb_gt. lia.
Qed.

Lemma key_leb_trans (x y z : Z * Z * Z) :
  key_leb x y = true → key_leb y z = true → key_leb x z = true.
Proof.
  destruct x as [[x1 x2] x3], y as [[y1 y2] y3], z as [[z1 z2] z3].
  unfold key_leb.
  rewrite !orb_true_iff, !andb_true_iff, !orb_true_iff, !andb_true_iff.
  rewrite !Z.ltb_lt, !Z.eqb_eq, !Z.leb_le. lia.
Qed.

Lemma insert_by_key_perm (x : match_record) (l : list match_record) :
  insert_by_key x l ≡ₚ x :: l.
Proof.
  induction l as [|y l IH]; [done|]. cbn [insert_by_key].
  destruct (key_leb (sort_key x) (sort_key y)); [reflexivity|].
  rewrite IH. apply Permutation_swap.
Qed.

Lemma sort_ascending_perm (l : list match_record) : sort_ascending l ≡ₚ l.
Proof.
  induction l as [|x l IH]; simpl; [reflexivity|].
  rewrite insert_by_key_perm. by constructor.
Qed.

Lemma insert_by_key_sorted (x : match_record) (l : list match_record) :
  StronglySorted (λ a b, key_leb (sort_key a) (sort_key b) = true) l →
  StronglySorted (λ a b, key_leb (sort_key a) (sort_key b) = true)
    (insert_by_key x l).
Proof.
  induction 1 as [|y l Hsorted IH Hall]; cbn [insert_by_key].
  { repeat constructor. }
  destruct (key_leb (sort_key x) (sort_key y)) eqn:Hxy.
  - constructor; [by constructor|]. constructor; [done|].
    eapply Forall_impl; [exact Hall|]. intros z Hz. simpl in Hz.
    by eapply key_leb_trans.
  - constructor; [done|].
    rewrite insert_by_key_perm. constructor; [|done].
    by apply key_leb_total.
Qed.

Lemma sort_ascending_sorted (l : list match_record) :
  StronglySorted (λ a b, key_leb (sort_key a) (sort_key b) = true)
    (sort_ascending l).
Proof.
  induction l as [|x l IH]; simpl; [constructor|].
  by apply insert_by_key_sorted.
Qed.

Lemma StronglySorted_lookup_lt {A} (R : A → A → Prop) (l : list A)
    (i j : nat) (a b : A) :
  StronglySorted R l → (i < j)%nat → l !! i = Some a → l !! j = Some b → R a b.
Proof.
  intros Hsorted. revert i j.
  induction Hsorted as [|x l Hsorted IH Hall]; intros i j Hij; [done|].
  destruct j as [|j]; [lia|]. destruct i as [|i]; simpl.
  - intros [= <-] Hb. rewrite Forall_forall in Hall. apply Hall.
    by eapply list_elem_of_lookup_2.
  - apply IH. lia.
Qed.

(** The matches come out of [sorted] in the order [comes_before]. *)
Lemma sorted_reverse_order (matches : list match_record) (i j : nat)
    (a b : match_record) :
  (i < j)%nat →
  sorted_reverse matches !! i = Some a → sorted_reverse matches !! j = Some b →
  comes_before a b.
Proof.
  unfold sorted_reverse. intros Hij Ha Hb.
  pose proof (lookup_lt_Some _ _ _ Ha) as Hi.
  pose proof (lookup_lt_Some _ _ _ Hb) as Hj.
  rewrite length_reverse in Hi, Hj.
  rewrite reverse_lookup in Ha, Hb by done.
  apply key_leb_comes_before.
  eapply (StronglySorted_lookup_lt _ _ _ _ b a (sort_ascending_sorted _));
    [|exact Hb|exact Ha].
  lia.
Qed.

Lemma sorted_reverse_perm (matches : list match_record) :
  sorted_reverse matches ≡ₚ matches.
Proof.
  unfold sorted_reverse.
  rewrite reverse_Permutation, sort_ascending_perm. apply reverse_Permutation.
Qed.

(** The calls made to the callbacks: one for each match whose label has a
    callback, with the index of the match. *)
Lemma elem_of_callback_calls (m : state) (sorted_matches : list match_record)
    (on_match : callback) (i : nat) :
  (on_match, i) ∈ callback_calls m sorted_matches ↔
  ∃ r, sorted_matches !! i = Some r ∧
       _callbacks m !! label r = Some (Some on_match).
Proof.
  unfold callback_calls. rewrite list_elem_of_omap. split.
  - intros ([k r] & Hin & Hcb).
    apply elem_of_lookup_imap_1 in Hin as (k' & r' & [= -> ->] & Hr).
    exists r'.
    destruct (_callbacks m !! label r') as [[cb|]|]; simpl in Hcb; by simplify_eq.
  - intros (r & Hr & Hcb). exists (i, r). split.
    + by apply (elem_of_lookup_imap_2 pair).
    + by rewrite Hcb.
Qed.

Lemma callback_calls_from (m : state) (n : nat) (l : list match_record) :
  let calls :=
    omap (λ '(i, r), match default None (_callbacks m !! label r) with
                     | Some on_match => Some (on_match, i)
                     | None => None
                     end)
         (imap (λ k, pair (n + k)%nat) l) in
  StronglySorted lt calls.*2 ∧ Forall (λ i, n ≤ i)%nat calls.*2.
Proof.
  revert n. induction l as [|r l IH]; intros n; simpl.
  { split; constructor. }
  rewrite (imap_ext _ (λ k, pair (S n + k)%nat))
    by (intros; simpl; f_equal; lia).
  destruct (IH (S n)) as [Hsorted Hall].
  assert (Forall (λ i, n < i)%nat
            (omap (λ '(i, r), match default None (_callbacks m !! label r) with
                              | Some on_match => Some (on_match, i)
                              | None => None
                              end)
                  (imap (λ k, pair (S n + k)%nat) l)).*2) as Hlt.
  { eapply Forall_impl; [exact Hall|]. simpl. lia. }
  destruct (default None (_callbacks m !! label r)) as [cb|]; simpl.
  - rewrite Nat.add_0_r. split.
    + by constructor.
    + constructor; [done|]. eapply Forall_impl; [exact Hlt|]. simpl. lia.
  - split; [done|]. eapply Forall_impl; [exact Hlt|]. simpl. lia.
Qed.

Section Order.
Context `{External}.

(** C4. Whatever the set of matches gathered, the list [__call__] makes of
    it holds the same matches, ordered by ascending start, then longer
    spans first, then higher ratios first; the callbacks are called with
    the indices of the matches in that list, in increasing order; and that
    list is what is returned. *)
Theorem call_order (m : state) (doc : Doc) (matches : list match_record) :
  let sorted_matches := sorted_reverse matches in
  sorted_matches ≡ₚ matches ∧
  (∀ i j a b, (i < j)%nat →
     sorted_matches !! i = Some a → sorted_matches !! j = Some b →
     comes_before a b) ∧
  (∀ on_match i,
     (on_match, i) ∈ callback_calls m sorted_matches ↔
     ∃ r, sorted_matches !! i = Some r ∧
          _callbacks m !! label r = Some (Some on_match)) ∧
  StronglySorted lt (callback_calls m sorted_matches).*2 ∧
  (collect m doc = Ok matches →
   __call__ m doc = Ok (sorted_matches, dispatch m doc sorted_matches)).
Proof.
  intros sorted_matches. split_and!.
  - apply sorted_reverse_perm.
  - intros i j a b. apply sorted_reverse_order.
  - intros on_match i. apply elem_of_callback_calls.
  - pose proof (callback_calls_from m 0 sorted_matches) as [Hsorted _].
    exact Hsorted.
  - unfold __call__. by intros ->.
Qed.

End Order.

(** ** The ratio of a match *)

(** The first term of the sum already raises: a slot result has no index 2,
    and [None] has no index at all. *)
Lemma span_ratio_raises (doc : Doc) (start end_ : nat) (spaczz_match : candidate) :
  (start < end_)%nat → (start < length doc)%nat → spaczz_match ≠ [] →
  ∃ e, span_ratio doc start end_ spaczz_match = Raise e ∧
       (e = TypeError ∨ e = IndexError).
Proof.
  intros Hlt Hdoc Hne. unfold span_ratio, doc_slice.
  destruct (drop start doc) as [|tok rest] eqn:Hdrop.
  { apply (f_equal length) in Hdrop. rewrite length_drop in Hdrop.
    simpl in Hdrop. lia. }
  destruct (end_ - start)%nat as [|n] eqn:Hn; [lia|].
  destruct spaczz_match as [|s cand]; [done|]. simpl.
  destruct s as [[case txt]|]; simpl; eauto.
Qed.

Lemma for_each_invariant {A S} (P : S → Prop) (body : A → S → res S)
    (xs : list A) (s s' : S) :
  (∀ x t t', x ∈ xs → P t → body x t = Ok t' → P t') →
  P s → for_each body xs s = Ok s' → P s'.
Proof.
  revert s. induction xs as [|x xs IH]; intros s Hbody Hs; simpl.
  { by intros [= <-]. }
  destruct (body x s) as [t|] eqn:Ht; simpl; [|done].
  apply IH.
  - intros y u u' Hy. apply Hbody. by right.
  - eapply Hbody; [by left|exact Hs|exact Ht].
Qed.

Section NoMatch.
Context `{External}.

(** The exact matcher returns spans that are not empty and lie within the
    document. *)
Hypothesis Matcher_spans : ∀ label pattern doc spans,
  Matcher label pattern doc = Ok spans →
  Forall (λ '(start, end_), (start < end_ ≤ length doc)%nat) spans.

(** A candidate for which the exact matcher finds a span makes the call
    raise; a candidate for which it finds none adds nothing. *)
Lemma match_candidate_nothing (doc : Doc) (label : string) (pattern : Pattern)
    (spaczz_match : candidate) (matches matches' : list match_record) :
  spaczz_match ≠ [] →
  match_candidate doc label pattern spaczz_match matches = Ok matches' →
  matches' = matches.
Proof.
  intros Hne. unfold match_candidate.
  destruct (_spacyfy spaczz_match pattern) as [concrete|]; simpl; [|done].
  destruct (Matcher label concrete doc) as [spans|] eqn:Hspans; simpl; [|done].
  apply Matcher_spans in Hspans.
  destruct spans as [|[start end_] spans]; simpl; [by intros [= <-]|].
  apply Forall_cons in Hspans as [Hspan _].
  destruct (span_ratio_raises doc start end_ spaczz_match) as (e & -> & _);
    [lia..|done|done].
Qed.

(** So whenever [__call__] returns, it returns no match. *)
Lemma call_returns_no_match (m : state) (doc : Doc)
    (sorted_matches : list match_record) (doc' : Doc) :
  __call__ m doc = Ok (sorted_matches, doc') → sorted_matches = [].
Proof.
  unfold __call__.
  destruct (collect m doc) as [matches|] eqn:Hcollect; simpl; [|done].
  intros [= <- _].
  assert (matches = []) as ->; [|done].
  revert Hcollect. unfold collect.
  apply (for_each_invariant (λ ms, ms = [])); [|done].
  intros [label patterns] t t' _ Ht.
  apply (for_each_invariant (λ ms, ms = [])); [|done].
  intros pattern u u' _ Hu. unfold match_pattern.
  destruct (match_ doc pattern _ _) as [cands|] eqn:Hmatch; simpl; [|done].
  apply (for_each_invariant (λ ms, ms = [])); [|done].
  intros cand v v' Hcand -> Hv.
  apply match_candidate_nothing in Hv; [done|].
  by apply (elem_of_match _ _ _ _ _ _ Hmatch) in Hcand as [? _].
Qed.

End NoMatch.

(** ** The model on concrete inputs *)

Section Runs.
Local Open Scope string_scope.
Local Existing Instance Sample.external.

(** C1. The matcher of the docstring's kind, with one fuzzy pattern: the
    searcher finds the candidate, the pattern is made concrete, the exact
    matcher finds the span, and computing the ratio raises [IndexError] at
    [token_match[2]], so the call returns no match at all. With a literal
    token-spec in the pattern the candidate has a [None] slot and
    [_spacyfy] raises [TypeError] at [token[0]]. *)
Theorem call_raises_at_ratio :
  match_ Examples.garfield_doc Examples.garfield_pattern 75 "simple"
    = Ok [[Some ("TEXT", "Grfield")]] ∧
  _spacyfy [Some ("TEXT", "Grfield")] Examples.garfield_pattern
    = Ok [ {[ "TEXT" := VAtom (AStr "Grfield") ]} ] ∧
  Matcher "NAME" [ {[ "TEXT" := VAtom (AStr "Grfield") ]} ] Examples.garfield_doc
    = Ok [(2, 3)%nat] ∧
  span_ratio Examples.garfield_doc 2 3 [Some ("TEXT", "Grfield")]
    = Raise IndexError ∧
  __call__ Examples.garfield_matcher Examples.garfield_doc = Raise IndexError ∧
  match_ Examples.sql_doc Examples.sql_pattern 75 "simple"
    = Ok [[None; Some ("LOWER", "acess")]] ∧
  _spacyfy [None; Some ("LOWER", "acess")] Examples.sql_pattern
    = Raise TypeError ∧
  __call__ Examples.sql_matcher Examples.sql_doc = Raise TypeError.
Proof. split_and!; by vm_compute. Qed.

(** The candidate found twice in [typo_doc] is returned once, before the
    one found in the third window. *)
Lemma match_first_seen_witness :
  match_ Examples.typo_doc Examples.access_pattern 75 "simple"
    = Ok Examples.typo_cands ∧
  NoDup Examples.typo_cands.
Proof.
  assert (match_ Examples.typo_doc Examples.access_pattern 75 "simple"
          = Ok Examples.typo_cands) as Hm by (by vm_compute).
  split; [exact Hm|].
  exact (proj1 (match_first_seen _ _ _ _ _ Hm)).
Defined.

(** With the cutoff 95 only the exact token is a candidate; it still is one
    with the cutoff 75. *)
Lemma fuzzy_threshold_witness :
  (75 ≤ 95)%Z ∧
  match_ Examples.typo_doc Examples.access_pattern 95 "simple"
    = Ok [[Some ("LOWER", "access")]] ∧
  ∃ cands', match_ Examples.typo_doc Examples.access_pattern 75 "simple"
              = Ok cands' ∧
            [Some ("LOWER", "access")] ∈ cands'.
Proof.
  assert (75 ≤ 95)%Z as Hle by lia.
  assert (match_ Examples.typo_doc Examples.access_pattern 95 "simple"
          = Ok [[Some ("LOWER", "access")]]) as Hm by (by vm_compute).
  split_and!; [exact Hle|exact Hm|].
  destruct (fuzzy_threshold Examples.typo_doc Examples.access_pattern "simple"
              95 75 Hle) as (_ & _ & Hset & _).
  apply (Hset _ _ Hm). apply list_elem_of_here.
Defined.

(** A token-spec without [TEXT]: [LOWER] governs. *)
Lemma parse_case_governs_witness :
  truthy (spec_get Examples.lower_spec "TEXT") = false ∧
  _parse_case Examples.lower_spec
    = (VDict {[ "FUZZY" := AStr "abc" ]}, "LOWER", true).
Proof.
  assert (truthy (spec_get Examples.lower_spec "TEXT") = false) as Hf
    by (by vm_compute).
  split; [exact Hf|].
  destruct (parse_case_governs Examples.lower_spec) as (_ & Hlower & _).
  rewrite (Hlower Hf). by vm_compute.
Defined.

(** C6. The token-spec [{"TEXT": "", "LOWER": {"FUZZY": "abc"}}] has a
    [TEXT] attribute, yet [LOWER] governs it and the token ["ABC"] is
    accepted for the target ["abc"]; and under [LOWER] an [FREGEX] pattern
    is not lower-cased: ["ABC"] does not match the token ["ABC"], which it
    does under [TEXT]. *)
Lemma text_present_lower_governs :
  is_Some (Examples.empty_text_spec !! "TEXT") ∧
  _parse_case Examples.empty_text_spec
    = (VDict {[ "FUZZY" := AStr "abc" ]}, "LOWER", true) ∧
  slot_result (Sample.tokens ["ABC"]) 75 "simple" 0 Examples.empty_text_spec
    = Ok (Some (Some ("LOWER", "ABC"))) ∧
  slot_result (Sample.tokens ["ABC"]) 75 "simple" 0 Examples.lower_regex_spec
    = Ok None ∧
  slot_result (Sample.tokens ["ABC"]) 75 "simple" 0 Examples.text_regex_spec
    = Ok (Some (Some ("TEXT", "ABC"))).
Proof. split_and!; [by eexists|by vm_compute..]. Qed.

(** A constraint object with both keys: [FUZZY] decides. *)
Lemma parse_type_precedence_witness :
  _parse_case Examples.both_spec = (VDict Examples.both_dict, "TEXT", false) ∧
  _parse_type Examples.both_dict = ("abc", "FUZZY").
Proof.
  assert (_parse_case Examples.both_spec
          = (VDict Examples.both_dict, "TEXT", false)) as Hc by (by vm_compute).
  split; [exact Hc|].
  destruct (parse_type_precedence [] 75 "simple" 0 _ _ _ _ Hc) as [Hfuzzy _].
  apply (Hfuzzy "abc"). by vm_compute.
Defined.



Lemma add_raises_keeps_accepted_witness :
  ∃ m', add "TEST" [PList Examples.test_pattern; PList []] None Examples.fresh
          = (Raise ValueError, m') ∧
        _callbacks m' = _callbacks Examples.fresh ∧
        _patterns m' !! "TEST" = Some [Examples.test_pattern].
Proof.
  pose proof (add_raises_keeps_accepted "TEST"
                [PList Examples.test_pattern; PList []] None Examples.fresh)
    as Hadd.
  destruct (add "TEST" [PList Examples.test_pattern; PList []] None
              Examples.fresh) as [r m'] eqn:Hrun.
  assert (r = Raise ValueError ∧
          _patterns m' !! "TEST" = Some [Examples.test_pattern]) as [-> Hpat].
  { vm_compute in Hrun. by injection Hrun as <- <-. }
  destruct Hadd as (accepted & _ & _ & _ & _ & bad & rest & _ & _ & Hcb & _).
  exists m'. by split_and!.
Defined.

(** C3. The second pattern of the call is empty: [add] raises, and the
    first pattern is registered under the label all the same. *)
Lemma add_not_atomic :
  ∃ m', add "TEST" [PList Examples.test_pattern; PList []] None Examples.fresh
          = (Raise ValueError, m') ∧
        _patterns Examples.fresh !! "TEST" = None ∧
        _patterns m' !! "TEST" = Some [Examples.test_pattern] ∧
        __contains__ Examples.fresh "TEST" = false ∧
        __contains__ m' "TEST" = true.
Proof. eexists. split_and!; by vm_compute. Qed.

Lemma add_existing_label_witness :
  _patterns Examples.garfield_matcher !! "NAME" = Some [Examples.garfield_pattern] ∧
  (add "NAME" [PList Examples.test_pattern] None Examples.garfield_matcher).1
    = Ok ().
Proof.
  assert (_patterns Examples.garfield_matcher !! "NAME"
          = Some [Examples.garfield_pattern]) as Hold by (by vm_compute).
  split; [exact Hold|].
  destruct (add_existing_label "NAME" [Examples.test_pattern] None
              Examples.garfield_matcher _ Hold) as [Hadd _].
  - by repeat constructor.
  - exact (f_equal fst Hadd).
Defined.

Lemma add_empty_orphan_callback_witness :
  _patterns Examples.fresh !! "GHOST" = None ∧
  ∃ m', add "GHOST" [] None Examples.fresh = (Ok (), m') ∧
        remove "GHOST" m' = (Raise ValueError, m') ∧
        _callbacks m' !! "GHOST" = Some None.
Proof.
  assert (_patterns Examples.fresh !! "GHOST" = None) as Hnone by apply lookup_empty.
  split; [exact Hnone|].
  destruct (add_empty_orphan_callback "GHOST" None Examples.fresh)
    as (Hadd & _ & _ & Hcb & Hlabel & _).
  destruct (Hlabel Hnone) as (_ & _ & Hrm & _).
  eexists. split_and!; [exact Hadd|exact Hrm|exact Hcb].
Defined.

(** C9. The label ["NAME"] is registered: after [add] with an empty list it
    is still contained and listed, and [remove] returns and deletes the
    callback that was recorded. *)
Lemma add_empty_on_registered_label :
  ∃ m' m'',
    add "NAME" [] None Examples.garfield_matcher = (Ok (), m') ∧
    __contains__ m' "NAME" = true ∧
    labels m' = ["NAME"] ∧
    __len__ m' = 1%nat ∧
    remove "NAME" m' = (Ok (), m'') ∧
    _callbacks m'' !! "NAME" = None.
Proof. eexists _, _. split_and!; by vm_compute. Qed.

(** C5. A [FUZZY] slot with the empty string for target and the cutoff 75:
    the ratio computed for the token ["zzz"] is 0, yet the window is a
    candidate, with [None] for slot result. *)
Lemma fuzzy_empty_target_accepts :
  _parse_type {[ "FUZZY" := AStr "" ]} = ("", "FUZZY") ∧
  fuzzy_compare "zzz" "" false (AInt 75) (AStr "simple") = Ok 0 ∧
  slot_result (Sample.tokens ["zzz"]) 75 "simple" 0
    {[ "TEXT" := VDict {[ "FUZZY" := AStr "" ]} ]} = Ok (Some None) ∧
  match_ (Sample.tokens ["zzz"]) Examples.empty_target_pattern 75 "simple"
    = Ok [[None]].
Proof. split_and!; by vm_compute. Qed.

(** Four matches, three of them starting at 4: the longer spans first, and
    among them the higher ratio first. *)
Lemma call_order_witness :
  sorted_reverse Examples.unsorted
    = [ mkMatch "B" 0 2 80 "q"; mkMatch "D" 4 7 95 "s";
        mkMatch "A" 4 7 90 "p"; mkMatch "C" 4 6 95 "r" ] ∧
  comes_before (mkMatch "D" 4 7 95 "s") (mkMatch "A" 4 7 90 "p").
Proof.
  assert (sorted_reverse Examples.unsorted
          = [ mkMatch "B" 0 2 80 "q"; mkMatch "D" 4 7 95 "s";
              mkMatch "A" 4 7 90 "p"; mkMatch "C" 4 6 95 "r" ]) as Hs
    by (by vm_compute).
  split; [exact Hs|].
  destruct (call_order Examples.fresh [] Examples.unsorted) as (_ & Hord & _).
  apply (Hord 1%nat 2%nat); [lia|by rewrite Hs..].
Defined.

End Runs.

(** * More of the matcher and of the searcher *)

(** ** The rule table *)

Lemma add_patterns_raises (label : string) (accepted : list Pattern)
    (bad : pattern_arg) (rest : list pattern_arg) (m : state) :
  Forall (λ p, p ≠ []) accepted → ¬ valid_pattern bad →
  (add_patterns label ((PList <$> accepted) ++ bad :: rest) m).1 =
    Raise (if bool_decide (len bad = 0%nat) then ValueError else TypeError).
Proof.
  intros Hacc Hbad. revert m.
  induction Hacc as [|p accepted Hp Hacc IH]; intros m; simpl.
  - case_bool_decide as Hlen; [done|].
    destruct bad as [l|d]; [|done].
    destruct Hbad. exists l. split; [done|]. by intros ->.
  - rewrite bool_decide_eq_false_2 by (by destruct p). apply IH.
Qed.

(** X1. What [add] answers. It returns exactly when every pattern of the call
    is a list with at least one token-spec; otherwise the exception is
    decided by the first pattern that is not: [ValueError] when it is empty,
    be it a list or a dictionary, [TypeError] when it is a dictionary with
    entries. *)
Theorem add_returns_iff_valid (label : string) (patterns : list pattern_arg)
    (on_match : TokenCallback) (m : state) :
  ((add label patterns on_match m).1 = Ok () ↔ Forall valid_pattern patterns) ∧
  (∀ accepted bad rest,
     patterns = (PList <$> accepted) ++ bad :: rest →
     Forall (λ p, p ≠ []) accepted → ¬ valid_pattern bad →
     (add label patterns on_match m).1 =
       Raise (if bool_decide (len bad = 0%nat) then ValueError else TypeError)).
Proof.
  split.
  - unfold add.
    destruct (add_patterns label patterns m) as [r m'] eqn:Hadd.
    pose proof Hadd as Hspec.
    apply add_patterns_spec in Hspec as (_ & _ & accepted & Hacc & _ & Hr).
    destruct r as [u|e]; simpl.
    + split; [intros _|by destruct u]. subst patterns.
      apply Forall_fmap. eapply Forall_impl; [exact Hacc|].
      intros p Hp. by exists p.
    + split; [done|]. intros Hvalid.
      destruct Hr as (bad & rest & -> & Hbad).
      apply Forall_app in Hvalid as [_ Hvalid].
      apply Forall_cons in Hvalid as [(l & -> & Hl) _].
      destruct Hbad as [[Hlen _]|(d & [=] & _)]. by destruct l.
  - intros accepted bad rest -> Hacc Hbad. unfold add.
    pose proof (add_patterns_raises label accepted bad rest m Hacc Hbad) as Hr.
    destruct (add_patterns _ _ _) as [[u|e] m']; simpl in *; [done|].
    by injection Hr as ->.
Qed.

(** X2. [add] on a label that has no patterns yet, with at least one pattern,
    all valid: the label is contained from then on and counted once, with
    exactly the patterns of the call. *)
Theorem add_fresh_label (label : string) (ps : list Pattern)
    (on_match : TokenCallback) (m : state) :
  _patterns m !! label = None → ps ≠ [] → Forall (λ p, p ≠ []) ps →
  let m' := (add label (PList <$> ps) on_match m).2 in
  (add label (PList <$> ps) on_match m).1 = Ok () ∧
  _patterns m' = <[label := ps]> (_patterns m) ∧
  _callbacks m' = <[label := on_match]> (_callbacks m) ∧
  __contains__ m label = false ∧
  __contains__ m' label = true ∧
  __len__ m' = S (__len__ m) ∧
  label ∈ labels m'.
Proof.
  intros Hnone Hne Hvalid. unfold add.
  rewrite add_patterns_valid by done. simpl.
  assert (with_patterns label ps (_patterns m) = <[label := ps]> (_patterns m))
    as ->.
  { destruct ps; [done|]. simpl. by rewrite Hnone. }
  split_and!; try done.
  - unfold __contains__. rewrite Hnone. apply bool_decide_eq_false_2.
    by intros [? ?].
  - unfold __contains__. simpl. rewrite lookup_insert_eq.
    by apply bool_decide_eq_true_2.
  - unfold __len__. simpl. by apply map_size_insert_None.
  - unfold labels. simpl. apply list_elem_of_fmap. exists (label, ps).
    split; [done|]. apply elem_of_map_to_list. apply lookup_insert_eq.
Qed.

Lemma well_formed_init (d : Defaults) : well_formed (__init__ d).
Proof. intros l ps Hl. simpl in Hl. by rewrite lookup_empty in Hl. Qed.

Lemma well_formed_add (label : string) (patterns : list pattern_arg)
    (on_match : TokenCallback) (m : state) :
  well_formed m → well_formed (add label patterns on_match m).2.
Proof.
  intros Hwf.
  assert (well_formed (add_patterns label patterns m).2) as Hkept.
  { destruct (add_patterns label patterns m) as [r m'] eqn:Hadd.
    apply add_patterns_spec in Hadd as (_ & _ & accepted & Hacc & Hpat & _).
    intros l ps. simpl. rewrite Hpat.
    destruct accepted as [|p accepted]; simpl; [apply Hwf|].
    destruct (decide (l = label)) as [->|Hne].
    - rewrite lookup_insert_eq. intros [= <-]. split.
      + by destruct (default [] (_patterns m !! label)).
      + apply Forall_app. split; [|done].
        destruct (_patterns m !! label) as [old|] eqn:Hold; simpl; [|done].
        by destruct (Hwf _ _ Hold).
    - rewrite lookup_insert_ne by done. apply Hwf. }
  unfold add. by destruct (add_patterns label patterns m) as [[u|e] m'].
Qed.

Lemma well_formed_remove (label : string) (m : state) :
  well_formed m → well_formed (remove label m).2.
Proof.
  intros Hwf l ps. unfold remove.
  destruct (_patterns m !! label) eqn:Hlabel; simpl; [|apply Hwf].
  destruct (_callbacks m !! label); simpl;
    (destruct (decide (l = label)) as [->|Hne];
     [by rewrite lookup_delete_eq|rewrite lookup_delete_ne by done; apply Hwf]).
Qed.

(** X3. The rule table stays well formed: a new matcher is, and [add] and
    [remove] keep it so, also when they raise. *)
Theorem well_formed_kept (label : string) (patterns : list pattern_arg)
    (on_match : TokenCallback) (d : Defaults) (m : state) :
  well_formed (__init__ d) ∧
  (well_formed m → well_formed (add label patterns on_match m).2) ∧
  (well_formed m → well_formed (remove label m).2).
Proof.
  split_and!.
  - apply well_formed_init.
  - apply well_formed_add.
  - apply well_formed_remove.
Qed.

(** X4. What [remove] does. Whether it returns or raises, the label has no
    patterns afterwards and the other labels are untouched. It returns when
    the label has patterns and a callback entry and then both are gone;
    otherwise it raises [ValueError] with the callbacks as they were, and
    when the label has patterns but no callback entry the patterns are
    deleted all the same. *)
Theorem remove_outcome (label : string) (m : state) :
  let '(r, m') := remove label m in
  __contains__ m' label = false ∧
  defaults m' = defaults m ∧
  (∀ other, other ≠ label →
     _patterns m' !! other = _patterns m !! other ∧
     _callbacks m' !! other = _callbacks m !! other) ∧
  match r with
  | Ok _ =>
      is_Some (_patterns m !! label) ∧ is_Some (_callbacks m !! label) ∧
      _patterns m' = delete label (_patterns m) ∧
      _callbacks m' = delete label (_callbacks m) ∧
      __len__ m = S (__len__ m')
  | Raise e =>
      e = ValueError ∧ _callbacks m' = _callbacks m ∧
      _patterns m' = delete label (_patterns m) ∧
      (_patterns m !! label = None ∨ _callbacks m !! label = None) ∧
      (_patterns m !! label = None → m' = m)
  end.
Proof.
  unfold remove, __contains__, __len__.
  assert (∀ table : gmap string (list Pattern),
            bool_decide (is_Some (delete label table !! label)) = false)
    as Hgone.
  { intros table. rewrite lookup_delete_eq. apply bool_decide_eq_false_2.
    by intros [? ?]. }
  destruct (_patterns m !! label) as [ps|] eqn:Hps.
  - assert (size (_patterns m) = S (size (delete label (_patterns m)))) as Hsize.
    { rewrite map_size_delete_Some by eauto.
      assert (size (_patterns m) ≠ 0%nat); [|lia].
      intros Hz%map_size_empty_inv. by rewrite Hz, lookup_empty in Hps. }
    destruct (_callbacks m !! label) as [cb|] eqn:Hcb; simpl.
    + split; [apply Hgone|]. split; [done|]. split.
      { intros other Hne. by rewrite !lookup_delete_ne. }
      split_and!; eauto.
    + split; [apply Hgone|]. split; [done|]. split.
      { intros other Hne. by rewrite lookup_delete_ne. }
      split_and!; eauto. done.
  - simpl. rewrite Hps. split.
    { apply bool_decide_eq_false_2. by intros [? ?]. }
    split; [done|]. split; [done|].
    split_and!; eauto. by rewrite delete_id.
Qed.

Lemma state_eq (m m' : state) :
  defaults m' = defaults m → _callbacks m' = _callbacks m →
  _patterns m' = _patterns m → m' = m.
Proof. destruct m, m'. simpl. by intros -> -> ->. Qed.

(** X5. [add] and then [remove], on a label the matcher knows nothing of, with
    at least one pattern, all valid: the matcher is as it was. *)
Theorem add_then_remove (label : string) (ps : list Pattern)
    (on_match : TokenCallback) (m : state) :
  _patterns m !! label = None → _callbacks m !! label = None →
  ps ≠ [] → Forall (λ p, p ≠ []) ps →
  remove label (add label (PList <$> ps) on_match m).2 = (Ok (), m).
Proof.
  intros Hps Hcb Hne Hvalid. unfold add.
  rewrite add_patterns_valid by done. simpl.
  assert (with_patterns label ps (_patterns m) = <[label := ps]> (_patterns m))
    as ->.
  { destruct ps; [done|]. simpl. by rewrite Hps. }
  unfold remove. simpl. rewrite !lookup_insert_eq. f_equal.
  apply state_eq; simpl; [done|by apply delete_insert_id..].
Qed.

(** X6. A call of [add] that raises after it has accepted a pattern leaves the
    label with patterns and without a callback entry. [remove] of such a
    label raises [ValueError], as for an unknown label, and deletes the
    patterns all the same: on a label the matcher knew nothing of, the
    matcher is then as it was before the call of [add]. *)
Theorem failed_add_then_remove (label : string) (p : Pattern) (bad : pattern_arg)
    (rest : list pattern_arg) (on_match : TokenCallback) (m : state) :
  _patterns m !! label = None → _callbacks m !! label = None →
  p ≠ [] → ¬ valid_pattern bad →
  let m1 := (add label (PList p :: bad :: rest) on_match m).2 in
  (∃ e, (add label (PList p :: bad :: rest) on_match m).1 = Raise e) ∧
  __contains__ m1 label = true ∧
  _callbacks m1 !! label = None ∧
  remove label m1 = (Raise ValueError, m).
Proof.
  intros Hps Hcb Hp Hbad.
  assert (add label (PList p :: bad :: rest) on_match m =
          (Raise (if bool_decide (len bad = 0%nat) then ValueError else TypeError),
           append_pattern label p m)) as ->.
  { unfold add. cbn [add_patterns].
    rewrite (bool_decide_eq_false_2 (len (PList p) = 0%nat)) by (by destruct p).
    case_bool_decide as Hlen; [done|].
    destruct bad as [l|d]; [|done].
    destruct Hbad. exists l. split; [done|]. by intros ->. }
  simpl. split_and!.
  - eauto.
  - unfold __contains__. simpl. rewrite lookup_insert_eq.
    by apply bool_decide_eq_true_2.
  - done.
  - unfold remove. simpl. rewrite lookup_insert_eq, Hcb. f_equal.
    apply state_eq; simpl; [done..|]. by apply delete_insert_id.
Qed.

(** X7. [labels], [in] and [len] agree: a label is among [labels] exactly when
    it is contained, no label is listed twice, and [len] counts them. *)
Theorem labels_contains_len (m : state) (label : string) :
  (label ∈ labels m ↔ __contains__ m label = true) ∧
  NoDup (labels m) ∧
  length (labels m) = __len__ m.
Proof.
  unfold labels, __contains__, __len__. split_and!.
  - rewrite bool_decide_eq_true, list_elem_of_fmap. split.
    + intros ([l ps] & -> & Hin%elem_of_map_to_list). eauto.
    + intros [ps Hps]. exists (label, ps). split; [done|].
      by apply elem_of_map_to_list.
  - apply NoDup_fst_map_to_list.
  - by rewrite length_fmap, length_map_to_list.
Qed.

Lemma entries_of_label (rules : list (string * list Pattern)) (l : string) :
  NoDup rules.*1 →
  entry_pattern <$>
    filter (λ e, entry_label e = l)
      ('(label, ps) ← rules; pattern ← ps; [mkEntry label pattern "token"])
  = default [] ((list_to_map rules : gmap string (list Pattern)) !! l).
Proof.
  induction rules as [|[k ps] rules IH]; intros Hnodup; [done|].
  apply NoDup_cons in Hnodup as [Hk Hnodup].
  rewrite bind_cons, filter_app, fmap_app, IH by done.
  rewrite list_to_map_cons.
  destruct (decide (k = l)) as [->|Hne].
  - rewrite lookup_insert_eq. simpl.
    rewrite (not_elem_of_list_to_map_1 rules l) by done. simpl.
    rewrite app_nil_r. clear. induction ps as [|p ps IH]; [done|].
    simpl. rewrite filter_cons. simpl. rewrite decide_True by done.
    simpl. by f_equal.
  - rewrite lookup_insert_ne by done.
    assert (filter (λ e, entry_label e = l)
              (ps ≫= λ pattern, [mkEntry k pattern "token"]) = []) as ->; [|done].
    clear -Hne. induction ps as [|p ps IH]; [done|].
    simpl. rewrite filter_cons. simpl. by rewrite decide_False by done.
Qed.

(** X8. The [patterns] property lists exactly the registered patterns, each
    with its label and the type ["token"]; the patterns of one label come
    in the order in which they were added. *)
Theorem patterns_entries (m : state) :
  (∀ e, e ∈ patterns m ↔
        entry_type e = "token"%string ∧
        ∃ ps, _patterns m !! entry_label e = Some ps ∧ entry_pattern e ∈ ps) ∧
  (∀ l, entry_pattern <$> filter (λ e, entry_label e = l) (patterns m)
        = default [] (_patterns m !! l)).
Proof.
  split.
  - intros e. unfold patterns. rewrite list_elem_of_bind. split.
    + intros ([l ps] & He & Hin%elem_of_map_to_list).
      apply list_elem_of_bind in He as (p & He & Hp).
      apply list_elem_of_singleton in He as ->. simpl. eauto.
    + intros (Hty & ps & Hps & Hp). exists (entry_label e, ps). split.
      * apply list_elem_of_bind. exists (entry_pattern e). split; [|done].
        apply list_elem_of_singleton. destruct e. simpl in *. by subst.
      * by apply elem_of_map_to_list.
  - intros l. unfold patterns.
    rewrite entries_of_label by apply NoDup_fst_map_to_list.
    by rewrite list_to_map_to_list.
Qed.

(** ** Pickling *)

Lemma add_rules_spec (rules : list (string * list Pattern))
    (callbacks : gmap string TokenCallback) (m0 : state) :
  NoDup rules.*1 →
  Forall (λ kv, kv.2 ≠ [] ∧ Forall (λ p : Pattern, p ≠ []) kv.2 ∧
                _patterns m0 !! kv.1 = None) rules →
  add_rules rules callbacks m0 =
    (Ok (),
     {| defaults := defaults m0;
        _callbacks :=
          list_to_map ((λ kv, (kv.1, default None (callbacks !! kv.1))) <$> rules)
          ∪ _callbacks m0;
        _patterns := list_to_map rules ∪ _patterns m0 |}).
Proof.
  revert m0. induction rules as [|[key specs] rules IH]; intros m0 Hnodup Hall.
  { simpl. f_equal. symmetry. apply state_eq; simpl; [done|..];
      apply (left_id_L ∅ (∪)). }
  apply NoDup_cons in Hnodup as [Hkey Hnodup].
  apply Forall_cons in Hall as [(Hne & Hvalid & Hfresh) Hall]. simpl in *.
  unfold add. rewrite add_patterns_valid by done. simpl.
  assert (with_patterns key specs (_patterns m0) = <[key := specs]> (_patterns m0))
    as ->.
  { destruct specs; [done|]. simpl. by rewrite Hfresh. }
  rewrite IH; [|done|]; cycle 1.
  { apply Forall_forall. intros [k ps] Hin. simpl.
    rewrite Forall_forall in Hall. destruct (Hall _ Hin) as (? & ? & ?).
    split_and!; [done..|]. rewrite lookup_insert_ne; [done|].
    intros ->. apply Hkey. apply list_elem_of_fmap. by exists (k, ps). }
  simpl. f_equal. f_equal.
  - rewrite <-insert_union_l. symmetry. apply insert_union_r.
    apply not_elem_of_list_to_map_1.
    by rewrite <-list_fmap_compose.
  - rewrite <-insert_union_l. symmetry. apply insert_union_r.
    by apply not_elem_of_list_to_map_1.
Qed.

(** X9. Pickling round trip. From the data [__reduce__] gives for a well-formed
    matcher, [unpickle_matcher] returns a matcher with the same patterns
    and default settings; each label with patterns has the callback
    [callbacks.get(label)], and labels without patterns have no callback
    entry, so a callback recorded for a label without patterns is lost.
    When the callbacks are recorded for exactly the labels with patterns,
    the matcher is the one that was pickled. *)
Theorem unpickle_round_trip (m : state) :
  well_formed m →
  let '(patterns, callbacks, defaults) := __reduce__ m in
  ∃ m',
    unpickle_matcher patterns callbacks defaults = (Ok (), m') ∧
    TokenMatcher.defaults m' = TokenMatcher.defaults m ∧
    _patterns m' = _patterns m ∧
    (∀ label, _callbacks m' !! label =
              (λ _, default None (_callbacks m !! label)) <$> _patterns m !! label) ∧
    (dom (_callbacks m) = dom (_patterns m) → m' = m).
Proof.
  intros Hwf. unfold __reduce__, unpickle_matcher.
  rewrite add_rules_spec; cycle 1.
  { apply NoDup_fst_map_to_list. }
  { apply Forall_forall. intros [k ps] Hin%elem_of_map_to_list. simpl.
    destruct (Hwf _ _ Hin). split_and!; [done..|]. apply lookup_empty. }
  eexists. split; [done|]. simpl.
  rewrite !(right_id_L ∅ (∪)), list_to_map_to_list.
  assert (∀ label,
            (list_to_map ((λ kv : string * list Pattern,
                             (kv.1, default None (_callbacks m !! kv.1)))
                          <$> map_to_list (_patterns m))
             : gmap string TokenCallback) !! label =
            (λ _, default None (_callbacks m !! label)) <$> _patterns m !! label)
    as Hcb.
  { intros label. destruct (_patterns m !! label) as [ps|] eqn:Hps; simpl.
    - apply elem_of_list_to_map_1.
      + rewrite <-list_fmap_compose. apply NoDup_fst_map_to_list.
      + apply list_elem_of_fmap. exists (label, ps). split; [done|].
        by apply elem_of_map_to_list.
    - apply not_elem_of_list_to_map_1. rewrite <-list_fmap_compose.
      intros ([k ps] & -> & Hin%elem_of_map_to_list)%list_elem_of_fmap.
      simpl in Hps. congruence. }
  split_and!; [done..|].
  intros Hdom. apply state_eq; simpl; [done| |done].
  apply map_eq. intros label. rewrite Hcb.
  destruct (_patterns m !! label) as [ps|] eqn:Hps; simpl.
  - assert (label ∈ dom (_callbacks m)) as [cb Hlabel]%elem_of_dom.
    { rewrite Hdom. apply elem_of_dom. eauto. }
    unfold TokenCallback in *. by rewrite Hlabel.
  - symmetry. apply not_elem_of_dom. rewrite Hdom. by apply not_elem_of_dom.
Qed.

(** ** The windows of a document *)

Lemma n_wise_short (doc : Doc) (n : nat) :
  (length doc < n)%nat → n_wise doc n = [].
Proof.
  destruct doc as [|tok doc]; [done|]. intros Hlt.
  cbn [n_wise]. rewrite bool_decide_eq_false_2; [done|]. lia.
Qed.

Lemma length_n_wise (doc : Doc) (n : nat) :
  (0 < n)%nat → length (n_wise doc n) = (length doc + 1 - n)%nat.
Proof.
  intros Hn. induction doc as [|tok doc IH]; cbn [n_wise].
  { simpl. lia. }
  case_bool_decide as Hlen.
  - cbn [length] in *. rewrite IH. lia.
  - cbn [length] in *. lia.
Qed.

Lemma n_wise_lookup (doc : Doc) (n i : nat) (seq : list Token) :
  n_wise doc n !! i = Some seq →
  (0 < n)%nat ∧ (i + n ≤ length doc)%nat ∧ seq = take n (drop i doc).
Proof.
  revert i. induction doc as [|tok doc IH]; intros i; cbn [n_wise]; [done|].
  case_bool_decide as Hlen; [|done].
  destruct i as [|i].
  - intros [= <-]. split_and!; [lia|lia|done].
  - intros (? & ? & ->)%IH. cbn [length]. split_and!; [done|lia|done].
Qed.

(** ** The shape of the candidates *)

Section Candidates.
Context `{External}.

Lemma slot_result_not_evaluated (seq : list Token) (c : Z) (ff : string)
    (i : nat) (token : TokenSpec) :
  evaluated token = false → slot_result seq c ff i token = Ok (Some None).
Proof.
  unfold evaluated, slot_result.
  destruct (_parse_case token) as [[[a|d] case] cb]; [done|].
  destruct (_parse_type d) as [pt ty].
  destruct (str_truthy pt); simpl; [|done].
  by intros [-> ->]%orb_false_iff.
Qed.

Lemma slot_result_evaluated (seq : list Token) (c : Z) (ff : string)
    (i : nat) (token : TokenSpec) (s : slot) :
  evaluated token = true → slot_result seq c ff i token = Ok (Some s) →
  ∃ tok, seq !! i = Some tok ∧ s = Some ((_parse_case token).1.2, text tok).
Proof.
  unfold evaluated, slot_result, seq_item.
  destruct (_parse_case token) as [[[a|d] case] cb]; [done|].
  destruct (_parse_type d) as [pt ty].
  destruct (str_truthy pt); simpl; [|done].
  destruct (bool_decide (ty = "FUZZY"%string)); simpl.
  - intros _. destruct (seq !! i) as [tok|]; simpl; [|done].
    destruct (fuzzy_compare _ _ _ _ _); simpl; [|done].
    destruct (as_int _); simpl; [|done].
    destruct (_ <=? _); [|done]. intros [= <-]. eauto.
  - intros ->. destruct (seq !! i) as [tok|]; simpl; [|done].
    destruct (regex_compare _ _ _); [|done]. intros [= <-]. eauto.
Qed.

(** X10. Every candidate has one slot result for each token-spec of the pattern.
    Where the slot results are [None] is decided by the pattern alone: at
    the token-specs that are not evaluated. At the others the slot result
    names the governing attribute and holds the text of the window's token
    at that position as it is written, also when [LOWER] governs. *)
Theorem candidate_shape (doc : Doc) (pattern : Pattern) (min_r : Z)
    (ff : string) (cands : list candidate) (cand : candidate) :
  match_ doc pattern min_r ff = Ok cands → cand ∈ cands →
  length cand = length pattern ∧
  ∃ seq, seq ∈ n_wise doc (length pattern) ∧
    ∀ k token, pattern !! k = Some token →
      if evaluated token
      then ∃ tok, seq !! k = Some tok ∧
                  cand !! k = Some (Some ((_parse_case token).1.2, text tok))
      else cand !! k = Some None.
Proof.
  intros Hmatch Hcand.
  destruct (match_candidate_slots _ _ _ _ _ _ Hmatch Hcand)
    as (_ & Hlen & seq & Hseq & Hslots).
  split; [done|]. exists seq. split; [done|]. intros k token Htoken.
  destruct (lookup_lt_is_Some_2 cand k) as [s Hs].
  { rewrite Hlen. by eapply lookup_lt_Some. }
  pose proof (Hslots _ _ _ Htoken Hs) as Hslot.
  destruct (evaluated token) eqn:Hev.
  - destruct (slot_result_evaluated _ _ _ _ _ _ Hev Hslot) as (tok & ? & ->).
    eauto.
  - rewrite slot_result_not_evaluated in Hslot by done. by injection Hslot as <-.
Qed.

Lemma iter_from_not_evaluated (seq : list Token) (c : Z) (ff : string)
    (i : nat) (tokens : Pattern) (acc : candidate) :
  Forall (λ token, evaluated token = false) tokens →
  iter_from seq c ff i tokens acc = Ok (acc ++ replicate (length tokens) None).
Proof.
  intros Hall. revert i acc.
  induction Hall as [|token tokens Htoken Hall IH]; intros i acc; simpl.
  { by rewrite app_nil_r. }
  rewrite slot_result_not_evaluated by done. simpl.
  by rewrite IH, <-app_assoc.
Qed.

Lemma first_seen_replicate {A} `{EqDecision A} (n : nat) (x : A) :
  first_seen (replicate n x) = match n with O => [] | S _ => [x] end.
Proof.
  induction n as [|n IH]; [done|].
  rewrite replicate_S_end, first_seen_snoc, IH.
  destruct (decide (x ∈ replicate n x)) as [Hin|Hin]; destruct n as [|n].
  - by apply elem_of_nil in Hin.
  - done.
  - done.
  - destruct Hin. by left.
Qed.

(** X11. A pattern without an evaluated token-spec: [match] looks at no token
    and cannot raise; it returns the one candidate made of [None] alone
    when the document has at least as many tokens as the pattern, and no
    candidate otherwise. *)
Theorem match_not_evaluated (doc : Doc) (pattern : Pattern) (min_r : Z)
    (ff : string) :
  pattern ≠ [] → Forall (λ token, evaluated token = false) pattern →
  match_ doc pattern min_r ff =
    Ok (if bool_decide (length pattern ≤ length doc)%nat
        then [replicate (length pattern) None] else []).
Proof.
  intros Hne Hall. apply match_Ok. split; [done|].
  assert (0 < length pattern)%nat as Hn by (destruct pattern; simpl; [done|lia]).
  exists (replicate (length (n_wise doc (length pattern)))
            (replicate (length pattern) None)).
  split.
  - induction (n_wise doc (length pattern)) as [|seq windows IH]; [done|].
    simpl. f_equal; [|exact IH].
    unfold _iter_pattern. by rewrite iter_from_not_evaluated.
  - rewrite length_n_wise by done.
    assert (∀ w, filter (λ c : candidate, c ≠ [])
                   (replicate w (replicate (length pattern) None))
                 = replicate w (replicate (length pattern) None)) as ->.
    { intros w. induction w as [|w IH]; [done|]. simpl.
      rewrite filter_cons, IH. rewrite decide_True; [done|].
      destruct (length pattern); [lia|done]. }
    rewrite first_seen_replicate.
    case_bool_decide as Hlen.
    + by destruct (length doc + 1 - length pattern)%nat eqn:Hw; [lia|].
    + by destruct (length doc + 1 - length pattern)%nat eqn:Hw; [|lia].
Qed.

Lemma length_first_seen {A} `{EqDecision A} (l : list A) :
  (length (first_seen l) ≤ length l)%nat.
Proof.
  unfold first_seen. rewrite length_fmap.
  etrans; [apply length_filter|]. by rewrite length_imap.
Qed.

(** X12. How many candidates there can be: none, and no exception either, for a
    document with fewer tokens than the pattern; never more than there are
    windows. *)
Theorem match_count (doc : Doc) (pattern : Pattern) (min_r : Z) (ff : string) :
  ((length doc < length pattern)%nat → match_ doc pattern min_r ff = Ok []) ∧
  (∀ cands, match_ doc pattern min_r ff = Ok cands →
     (length cands ≤ length doc + 1 - length pattern)%nat).
Proof.
  split.
  - intros Hlt. unfold match_.
    rewrite bool_decide_eq_false_2 by lia. by rewrite n_wise_short.
  - intros cands (Hne & results & Hres & ->)%match_Ok.
    assert (0 < length pattern)%nat as Hn by (destruct pattern; simpl; [done|lia]).
    etrans; [apply length_first_seen|]. etrans; [apply length_filter|].
    apply (f_equal length) in Hres. rewrite !length_fmap in Hres.
    by rewrite <-Hres, length_n_wise.
Qed.

End Candidates.

(** ** What a slot lets through *)

Section Slots.
Context `{External}.

Lemma iter_from_rejected (seq : list Token) (c : Z) (ff : string) (i : nat)
    (before : Pattern) (token : TokenSpec) (after : Pattern) (acc : candidate) :
  (∀ j t, before !! j = Some t →
          ∃ s, slot_result seq c ff (i + j) t = Ok (Some s)) →
  slot_result seq c ff (i + length before) token = Ok None →
  iter_from seq c ff i (before ++ token :: after) acc = Ok [].
Proof.
  revert i acc. induction before as [|t before IH]; intros i acc Hbefore Hrej.
  - simpl in *. rewrite Nat.add_0_r in Hrej. by rewrite Hrej.
  - destruct (Hbefore 0%nat t eq_refl) as [s Hs].
    rewrite Nat.add_0_r in Hs. simpl. rewrite Hs. simpl.
    apply IH.
    + intros j t' Ht'. rewrite Nat.add_succ_l, <-Nat.add_succ_r.
      by apply (Hbefore (S j)).
    + by rewrite Nat.add_succ_l, <-Nat.add_succ_r.
Qed.

(** X13. The first slot that rejects the window ends its evaluation: the result
    is the empty list whatever token-specs follow, none of which is
    evaluated, so that one that would raise (an unregistered [FUZZY_FUNC],
    a [MIN_R] that is no number) goes unnoticed. *)
Theorem iter_pattern_short_circuit (seq : list Token) (min_r : Z) (ff : string)
    (before : Pattern) (token : TokenSpec) (after : Pattern) :
  (∀ j t, before !! j = Some t →
          ∃ s, slot_result seq min_r ff j t = Ok (Some s)) →
  slot_result seq min_r ff (length before) token = Ok None →
  _iter_pattern seq (before ++ token :: after) min_r ff = Ok [].
Proof.
  intros Hbefore Hrej. unfold _iter_pattern. by apply iter_from_rejected.
Qed.

(** X14. A [FUZZY] slot whose effective cutoff is zero or less accepts every
    token, whatever the similarity, as long as the function is registered. *)
Theorem fuzzy_slot_zero_cutoff (seq : list Token) (min_r : Z) (ff : string)
    (i : nat) (token : TokenSpec) (d : gmap string atom) (case target : string)
    (cb : bool) (tok : Token) (eff : Z) (g : string → string → Q) :
  _parse_case token = (VDict d, case, cb) →
  _parse_type d = (target, "FUZZY"%string) → target ≠ ""%string →
  seq !! i = Some tok →
  as_int (dict_get_or d "MIN_R" (AInt min_r)) = Ok eff → eff ≤ 0 →
  registry_get (dict_get_or d "FUZZY_FUNC" (AStr ff)) = Ok g →
  slot_result seq min_r ff i token = Ok (Some (Some (case, text tok))).
Proof.
  intros Hcase Htype Htarget Htok Heff Hle Hg.
  rewrite (fuzzy_slot_result _ _ _ _ _ _ _ _ _ _ _ Hcase Htype Htarget Htok Heff).
  assert (fuzzy_compare (text tok) target cb (dict_get_or d "MIN_R" (AInt min_r))
            (dict_get_or d "FUZZY_FUNC" (AStr ff))
          = Ok (py_round (with_cutoff
                            (g (if cb then str_lower (text tok) else text tok)
                               (if cb then str_lower target else target)) eff)))
    as ->.
  { apply fuzzy_compare_Ok. by exists g, eff. }
  simpl.
  assert (eff ≤ py_round (with_cutoff
                            (g (if cb then str_lower (text tok) else text tok)
                               (if cb then str_lower target else target)) eff))
    as Hreach by (apply cutoff_reached; by right).
  apply Z.leb_le in Hreach. by rewrite Hreach.
Qed.

End Slots.

(** ** Concretization of a candidate with a [None] slot *)


Section NoneSlot.
Context `{External}.


End NoneSlot.

(** ** Calling the matcher *)

Lemma for_each_unchanged {A S} (body : A → S → res S) (xs : list A) (s : S) :
  (∀ x, x ∈ xs → body x s = Ok s) → for_each body xs s = Ok s.
Proof.
  induction xs as [|x xs IH]; intros Hbody; [done|]. simpl.
  rewrite Hbody by by left. simpl. apply IH. intros y Hy. apply Hbody. by right.
Qed.

Section Calls.
Context `{External}.

(** X16. When the searcher finds no candidate for any registered pattern, the
    call returns the empty list; no callback is called and the document is
    as it was. *)
Theorem call_without_candidates (m : state) (doc : Doc) :
  (∀ label ps pattern,
     _patterns m !! label = Some ps → pattern ∈ ps →
     match_ doc pattern (default 75 (min_r (defaults m)))
       (default "simple"%string (fuzzy_func (defaults m))) = Ok []) →
  __call__ m doc = Ok ([], doc) ∧ callback_calls m [] = [].
Proof.
  intros Hnone. split; [|done]. unfold __call__.
  assert (collect m doc = Ok []) as ->; [|done].
  unfold collect. apply for_each_unchanged.
  intros [label ps] Hin%elem_of_map_to_list.
  apply for_each_unchanged. intros pattern Hpattern.
  unfold match_pattern. by rewrite (Hnone label ps pattern).
Qed.

(** The exact matcher returns spans that are not empty and lie within the
    document. *)
Hypothesis Matcher_in_range : ∀ label pattern doc spans,
  Matcher label pattern doc = Ok spans →
  Forall (λ '(start, end_), (start < end_ ≤ length doc)%nat) spans.

(** X17. Whenever the call returns, it returns no match, has called no callback
    and has left the document as it was: a span that the exact matcher
    finds makes the computation of its ratio raise. *)
Theorem call_returns_nothing (m : state) (doc : Doc)
    (sorted_matches : list match_record) (doc' : Doc) :
  __call__ m doc = Ok (sorted_matches, doc') →
  sorted_matches = [] ∧ doc' = doc ∧ callback_calls m sorted_matches = [].
Proof.
  intros Hcall.
  pose proof (call_returns_no_match Matcher_in_range _ _ _ _ Hcall) as ->.
  split; [done|]. split; [|done].
  unfold __call__ in Hcall.
  destruct (collect m doc) as [matches|]; simpl in Hcall; [|done].
  injection Hcall as Hsorted <-. by rewrite Hsorted.
Qed.

End Calls.

(** ** More concrete inputs *)

Lemma literal_matcher_in_range (label : string) (pattern : Pattern) (doc : Doc)
    (spans : list (nat * nat)) :
  Sample.literal_matcher label pattern doc = Ok spans →
  Forall (λ '(start, end_), (start < end_ ≤ length doc)%nat) spans.
Proof.
  unfold Sample.literal_matcher. intros [= <-].
  apply Forall_forall. intros [start end_] Hin.
  apply list_elem_of_omap in Hin as ([i window] & Hin & Hspan).
  apply elem_of_lookup_imap_1 in Hin as (i' & window' & [= -> ->] & Hw).
  apply n_wise_lookup in Hw as (Hn & Hlen & _).
  destruct (forallb _ _); [|done]. injection Hspan as <- <-. lia.
Qed.

Section MoreRuns.
Local Open Scope string_scope.
Local Existing Instance Sample.external.

Lemma garfield_rules :
  _patterns Examples.garfield_matcher = {[ "NAME" := [Examples.garfield_pattern] ]}.
Proof. by vm_compute. Qed.

Lemma test_pattern_valid : Examples.test_pattern ≠ [].
Proof. done. Qed.

Lemma garfield_pattern_valid : Examples.garfield_pattern ≠ [].
Proof. done. Qed.

Lemma not_valid_empty : ¬ valid_pattern (PList []).
Proof. by intros (l & [= <-] & Hl). Qed.

(** An empty dictionary among the patterns: [ValueError], not [TypeError]. *)
Lemma add_returns_iff_valid_witness :
  (add "TEST" [PList Examples.test_pattern; PDict ∅] None Examples.fresh).1
    = Raise ValueError.
Proof.
  destruct (add_returns_iff_valid "TEST" [PList Examples.test_pattern; PDict ∅]
              None Examples.fresh) as [_ Hraise].
  rewrite (Hraise [Examples.test_pattern] (PDict ∅) []); [done|done| |].
  - by repeat constructor.
  - by intros (l & [=] & _).
Defined.

Lemma add_fresh_label_witness :
  _patterns Examples.fresh !! "NAME" = None ∧
  __contains__ (add "NAME" [PList Examples.garfield_pattern] None Examples.fresh).2
    "NAME" = true.
Proof.
  assert (_patterns Examples.fresh !! "NAME" = None) as Hnone by apply lookup_empty.
  split; [exact Hnone|].
  destruct (add_fresh_label "NAME" [Examples.garfield_pattern] None
              Examples.fresh Hnone) as (_ & _ & _ & _ & Hin & _).
  - done.
  - by repeat constructor.
  - exact Hin.
Defined.

Lemma well_formed_kept_witness :
  well_formed Examples.fresh ∧
  well_formed (add "TEST" [PList Examples.test_pattern; PList []] None
                 Examples.fresh).2.
Proof.
  destruct (well_formed_kept "TEST" [PList Examples.test_pattern; PList []]
              None (mkDefaults None None) Examples.fresh) as (Hinit & Hadd & _).
  split; [exact Hinit|exact (Hadd Hinit)].
Defined.

Lemma remove_outcome_witness :
  remove "NAME" Examples.garfield_matcher = (Ok (), Examples.fresh) ∧
  __len__ Examples.garfield_matcher = S (__len__ Examples.fresh).
Proof.
  assert (remove "NAME" Examples.garfield_matcher = (Ok (), Examples.fresh))
    as Hrm by (by vm_compute).
  split; [exact Hrm|].
  pose proof (remove_outcome "NAME" Examples.garfield_matcher) as Hout.
  rewrite Hrm in Hout. by destruct Hout as (_ & _ & _ & _ & _ & _ & _ & Hlen).
Defined.

Lemma add_then_remove_witness :
  _patterns Examples.fresh !! "NAME" = None ∧
  remove "NAME" (add "NAME" [PList Examples.garfield_pattern] None Examples.fresh).2
    = (Ok (), Examples.fresh).
Proof.
  assert (_patterns Examples.fresh !! "NAME" = None) as Hnone by apply lookup_empty.
  split; [exact Hnone|].
  apply (add_then_remove "NAME" [Examples.garfield_pattern] None Examples.fresh).
  - exact Hnone.
  - apply lookup_empty.
  - done.
  - by repeat constructor.
Defined.

Lemma failed_add_then_remove_witness :
  _patterns Examples.fresh !! "TEST" = None ∧
  remove "TEST" (add "TEST" [PList Examples.test_pattern; PList []] None
                   Examples.fresh).2
    = (Raise ValueError, Examples.fresh).
Proof.
  assert (_patterns Examples.fresh !! "TEST" = None) as Hnone by apply lookup_empty.
  split; [exact Hnone|].
  destruct (failed_add_then_remove "TEST" Examples.test_pattern (PList []) []
              None Examples.fresh Hnone) as (_ & _ & _ & Hrm).
  - apply lookup_empty.
  - done.
  - exact not_valid_empty.
  - exact Hrm.
Defined.

Lemma unpickle_round_trip_witness :
  well_formed Examples.garfield_matcher ∧
  unpickle_matcher (_patterns Examples.garfield_matcher)
    (_callbacks Examples.garfield_matcher) (defaults Examples.garfield_matcher)
  = (Ok (), Examples.garfield_matcher).
Proof.
  assert (well_formed Examples.garfield_matcher) as Hwf.
  { apply well_formed_add, well_formed_init. }
  split; [exact Hwf|].
  destruct (unpickle_round_trip Examples.garfield_matcher Hwf)
    as (m' & Hun & _ & _ & _ & Hsame).
  rewrite Hun. f_equal. apply Hsame. by vm_compute.
Defined.

Lemma candidate_shape_witness :
  match_ Examples.sql_doc Examples.sql_pattern 75 "simple"
    = Ok [[None; Some ("LOWER", "acess")]] ∧
  length [None; Some ("LOWER", "acess")] = length Examples.sql_pattern.
Proof.
  assert (match_ Examples.sql_doc Examples.sql_pattern 75 "simple"
          = Ok [[None; Some ("LOWER", "acess")]]) as Hm by (by vm_compute).
  split; [exact Hm|].
  destruct (candidate_shape _ _ _ _ _ [None; Some ("LOWER", "acess")] Hm)
    as [Hlen _]; [apply list_elem_of_here|exact Hlen].
Defined.

Lemma match_not_evaluated_witness :
  Examples.literal_pattern ≠ [] ∧
  match_ Examples.typo_doc Examples.literal_pattern 75 "simple"
    = Ok [[None; None]].
Proof.
  assert (Examples.literal_pattern ≠ []) as Hne by done.
  split; [exact Hne|].
  rewrite (match_not_evaluated Examples.typo_doc Examples.literal_pattern 75
             "simple" Hne).
  - done.
  - repeat constructor.
Defined.

Lemma match_count_witness :
  (length Examples.shout_doc < length Examples.sql_pattern)%nat ∧
  match_ Examples.shout_doc Examples.sql_pattern 75 "simple" = Ok [].
Proof.
  assert (length Examples.shout_doc < length Examples.sql_pattern)%nat as Hlt
    by (simpl; lia).
  split; [exact Hlt|].
  destruct (match_count Examples.shout_doc Examples.sql_pattern 75 "simple")
    as [Hshort _].
  exact (Hshort Hlt).
Defined.

(** The second token-spec rejects ["zzz"]; the third, with a function that is
    not registered, is never evaluated. *)
Lemma iter_pattern_short_circuit_witness :
  slot_result (Sample.tokens ["SQL"; "zzz"; "x"]) 75 "simple" 1 Examples.abc_spec
    = Ok None ∧
  slot_result (Sample.tokens ["SQL"; "zzz"; "x"]) 75 "simple" 2
    Examples.unregistered_spec = Raise RegistryError ∧
  _iter_pattern (Sample.tokens ["SQL"; "zzz"; "x"])
    [ {[ "TEXT" := VAtom (AStr "SQL") ]}; Examples.abc_spec;
      Examples.unregistered_spec ] 75 "simple" = Ok [].
Proof.
  assert (slot_result (Sample.tokens ["SQL"; "zzz"; "x"]) 75 "simple" 1
            Examples.abc_spec = Ok None) as Hrej by (by vm_compute).
  split_and!; [exact Hrej|by vm_compute|].
  apply (iter_pattern_short_circuit _ _ _ [ {[ "TEXT" := VAtom (AStr "SQL") ]} ]
           Examples.abc_spec [Examples.unregistered_spec]).
  - intros [|j] t; [|done]. intros [= <-]. exists None. by vm_compute.
  - exact Hrej.
Defined.

Lemma fuzzy_slot_zero_cutoff_witness :
  _parse_case Examples.zero_cutoff_spec
    = (VDict Examples.zero_cutoff_dict, "TEXT", false) ∧
  slot_result (Sample.tokens ["zzz"]) 75 "simple" 0 Examples.zero_cutoff_spec
    = Ok (Some (Some ("TEXT", "zzz"))).
Proof.
  assert (_parse_case Examples.zero_cutoff_spec
          = (VDict Examples.zero_cutoff_dict, "TEXT", false)) as Hcase
    by (by vm_compute).
  split; [exact Hcase|].
  apply (fuzzy_slot_zero_cutoff _ _ _ _ _ _ _ "abc" _ (mkToken "zzz") 0
           Sample.indel_ratio Hcase); by vm_compute.
Defined.


Lemma no_garfield_in_quiet_doc (label : string) (ps : list Pattern)
    (pattern : Pattern) :
  _patterns Examples.garfield_matcher !! label = Some ps → pattern ∈ ps →
  match_ Examples.quiet_doc pattern
    (default 75 (min_r (defaults Examples.garfield_matcher)))
    (default "simple" (fuzzy_func (defaults Examples.garfield_matcher))) = Ok [].
Proof.
  rewrite garfield_rules. intros [<- <-]%lookup_singleton_Some.
  intros ->%list_elem_of_singleton. by vm_compute.
Qed.

Lemma call_without_candidates_witness :
  __call__ Examples.garfield_matcher Examples.quiet_doc
    = Ok ([], Examples.quiet_doc).
Proof.
  destruct (call_without_candidates Examples.garfield_matcher Examples.quiet_doc
              no_garfield_in_quiet_doc) as [Hcall _].
  exact Hcall.
Defined.

Lemma call_returns_nothing_witness :
  ∃ sorted_matches doc',
    __call__ Examples.garfield_matcher Examples.quiet_doc
      = Ok (sorted_matches, doc') ∧
    sorted_matches = [] ∧ doc' = Examples.quiet_doc.
Proof.
  eexists _, _. split; [by vm_compute|].
  assert (__call__ Examples.garfield_matcher Examples.quiet_doc
          = Ok ([], Examples.quiet_doc)) as Hcall by (by vm_compute).
  destruct (@call_returns_nothing Sample.external literal_matcher_in_range
              _ _ _ _ Hcall) as (Hnil & Hdoc & _).
  by split.
Defined.

End MoreRuns.
